(** * squid: SQL template tag and spread helpers (src/sql/index.ts)

    A shallow embedding of [sql], [sql.raw], [sql.safe], [spreadAnd],
    [spreadInsert] and [spreadUpdate], together with the parts of
    [./builder] and [../utils] they call, and the properties of the query
    objects they build. *)

From Stdlib Require Import List String Ascii Arith ZArith Lia Bool.
From Stdlib Require Import Decimal DecimalString DecimalNat DecimalFacts.
Import ListNotations.

Local Open Scope list_scope.
Local Open Scope string_scope.

(** ** Errors and results

    The only exception the module raises itself is the [TypeError] of
    [spreadInsert]; a thrown exception aborts the whole computation. *)

Inductive error : Type :=
| TypeError (message : string).

Inductive result (A : Type) : Type :=
| Ok (a : A)
| Throw (e : error).

Arguments Ok {A} a.
Arguments Throw {A} e.

(** ** Values, query objects and builders *)

(** [QueryConfig]: [{ text: string, values: any[] }]. *)
Record QueryConfig_ (V : Type) : Type := mkQuery {
  text : string;
  values : list V
}.

Arguments mkQuery {V} text values.
Arguments text {V} q.
Arguments values {V} q.

Local Set Warnings "-register-all".

(** Modelled from the spec: the builder variants of ./builder (section 3:
    raw fragment, parameter-bound value, deferred composite), declared
    together with the JavaScript values as far as the serializer tells them
    apart: arrays, builders, and everything else (bound as one parameter).
    [VObject] stands for any other object or function, told apart by a
    name; the members an object inherits from [Object.prototype] are such
    values.  A deferred composite holds its builder function, from the
    start index to a query object or an exception. *)
Inductive value : Type :=
| VUndefined
| VNull
| VBool (b : bool)
| VNum (n : Z)
| VStr (s : string)
| VArr (elems : list value)
| VBuilder (b : SqlBuilder)
| VObject (name : string)
with SqlBuilder : Type :=
| RawFragment (raw : string)
| ParamValue (v : value)
| Deferred (buildFragment : nat -> result (QueryConfig_ value)).

Definition QueryConfig : Type := QueryConfig_ value.

(** A record is a plain object, given by the ordered list of its own
    enumerable entries, which is what [Object.entries] and [Object.keys]
    return. *)
Definition ValueRecord : Type := list (string * value).

(** The names of the members a plain object inherits from
    [Object.prototype]. *)
Definition objectPrototypeMembers : list string :=
  ["constructor"; "hasOwnProperty"; "isPrototypeOf"; "propertyIsEnumerable";
   "toLocaleString"; "toString"; "valueOf"; "__proto__";
   "__defineGetter__"; "__defineSetter__"; "__lookupGetter__";
   "__lookupSetter__"].

(** What a property read finds on the prototype when the object has no own
    property of that name. *)
Definition inherited (name : string) : value :=
  if existsb (String.eqb name) objectPrototypeMembers
  then VObject name
  else VUndefined.

(** The property read [record[columnName]]: the own entry of that name if
    there is one, else the inherited member, else [undefined]. *)
Fixpoint get (record : ValueRecord) (columnName : string) : value :=
  match record with
  | [] => inherited columnName
  | (k, v) :: rest => if String.eqb k columnName then v else get rest columnName
  end.

Definition isUndefined (v : value) : bool :=
  match v with
  | VUndefined => true
  | _ => false
  end.

(** ** A state-and-exception monad for the [map] callbacks

    The callbacks of [sql] and of the spread helpers update local variables
    ([parameterValues], [values], [nextParamID]) while they map over a list
    and may throw; [M S A] threads a state of type [S]. *)

Definition M (S A : Type) : Type := S -> result (A * S).

Definition ret {S A} (a : A) : M S A := fun s => Ok (a, s).

Definition bind {S A B} (m : M S A) (k : A -> M S B) : M S B :=
  fun s =>
    match m s with
    | Ok (a, s') => k a s'
    | Throw e => Throw e
    end.

Definition throw {S A} (e : error) : M S A := fun _ => Throw e.

Definition readState {S} : M S S := fun s => Ok (s, s).

Definition modify {S} (f : S -> S) : M S unit := fun s => Ok (tt, f s).

Definition liftResult {S A} (r : result A) : M S A :=
  fun s =>
    match r with
    | Ok a => Ok (a, s)
    | Throw e => Throw e
    end.

Declare Scope js_scope.
Delimit Scope js_scope with js.

Notation "x <- m ;; k" := (bind m (fun x => k))
  (at level 61, m at next level, right associativity) : js_scope.
Notation "m ;; k" := (bind m (fun _ => k))
  (at level 61, right associativity) : js_scope.

Local Open Scope js_scope.

(** [Array.prototype.map] with an effectful callback, left to right. *)
Fixpoint mapM {S A B} (f : A -> M S B) (l : list A) : M S (list B) :=
  match l with
  | [] => ret []
  | a :: rest =>
      b <- f a ;;
      bs <- mapM f rest ;;
      ret (b :: bs)
  end.

(** [Array.prototype.join] on an array of strings. *)
Definition join (sep : string) (parts : list string) : string :=
  String.concat sep parts.

(** ** ./builder *)

(** Decimal rendering of a parameter index, as string interpolation of a
    non-negative integer gives it. *)
Definition showIndex (n : nat) : string :=
  NilEmpty.string_of_uint (Nat.to_uint n).

(** Modelled from the spec: the positional placeholder token of ./builder
    for parameter [n], a dollar sign and the index ("e.g., $1"). *)
Definition placeholder (n : nat) : string :=
  String "$" (showIndex n).

(** Modelled from the spec: [rawSqlBuilder] of ./builder, which is not
    among the sources: "always serializes to text verbatim, zero values". *)
Definition rawSqlBuilder (rawValue : string) : SqlBuilder :=
  RawFragment rawValue.

(** Modelled from the spec: [paramSqlBuilder] of ./builder: "always
    serializes via the single-placeholder scalar rule regardless of the
    value's shape". *)
Definition paramSqlBuilder (v : value) : SqlBuilder :=
  ParamValue v.

(** Modelled from the spec: [mkSqlBuilder] of ./builder: wraps a function
    from the start index to a [(text, values)] pair. *)
Definition mkSqlBuilder (fn : nat -> result QueryConfig) : SqlBuilder :=
  Deferred fn.

(** Modelled from the spec: [isSqlBuilder] of ./builder, telling the three
    builder variants from plain values. *)
Definition isSqlBuilder (x : value) : bool :=
  match x with
  | VBuilder _ => true
  | _ => false
  end.

(** Modelled from the spec: the serialization of each builder variant
    (section 3, "SqlBuilder"). *)
Definition buildFragment (b : SqlBuilder) (startIndex : nat) : result QueryConfig :=
  match b with
  | RawFragment raw => Ok (mkQuery raw [])
  | ParamValue v => Ok (mkQuery (placeholder startIndex) [v])
  | Deferred fn => fn startIndex
  end.

Section SerializeElements.

Variable serialize : value -> nat -> result QueryConfig.

(** Modelled from the spec: the list rule of the Value Serializer of
    ./builder (section 4.1): the elements of a list, each serialized at the
    start index plus the number of parameters the elements before it
    consumed. *)
Fixpoint serializeElements (elems : list value) (startIndex : nat)
  : result (list QueryConfig) :=
  match elems with
  | [] => Ok []
  | e :: rest =>
      match serialize e startIndex with
      | Throw err => Throw err
      | Ok q =>
          match serializeElements rest (startIndex + List.length (values q)) with
          | Throw err => Throw err
          | Ok qs => Ok (q :: qs)
          end
      end
  end.

End SerializeElements.

(** Modelled from the spec: [buildSql] of ./builder, the Value Serializer
    of section 4.1: a builder serializes itself; a list serializes its
    elements with running index, joined with ", " inside parentheses; any
    other value is one placeholder bound to the value. *)
Fixpoint buildSql (expression : value) (startIndex : nat) {struct expression}
  : result QueryConfig :=
  match expression with
  | VBuilder b => buildFragment b startIndex
  | VArr elems =>
      match serializeElements buildSql elems startIndex with
      | Throw err => Throw err
      | Ok qs =>
          Ok (mkQuery ("(" ++ join ", " (map text qs) ++ ")")
                      (List.concat (map values qs)))
      end
  | _ => Ok (mkQuery (placeholder startIndex) [expression])
  end.

(** ** ../utils *)

(** Modelled from the spec: [filterUndefined] of ../utils: "entries with an
    undefined value are dropped before serialization". *)
Definition filterUndefined (record : ValueRecord) : ValueRecord :=
  filter (fun entry => negb (isUndefined (snd entry))) record.

(** [Object.entries] of a record. *)
Definition entries (record : ValueRecord) : list (string * value) := record.

(** Modelled from the spec: one step of [extractKeys], which keeps the
    first occurrence of a key. *)
Definition addKey (keys : list string) (key : string) : list string :=
  if existsb (String.eqb key) keys then keys else (keys ++ [key])%list.

(** Modelled from the spec: [extractKeys] of ../utils: "the union of keys
    across all given records (order = first-seen across records)". *)
Definition extractKeys (objects : list ValueRecord) : list string :=
  fold_left (fun keys object => fold_left addKey (map fst object) keys)
            objects [].

(** Modelled from the spec: [mergeLists] of ../utils: the two lists
    interleaved, starting with the first ("L0 + text(E1) + L1 + ..."). *)
Fixpoint mergeLists {A} (list1 list2 : list A) : list A :=
  match list1 with
  | [] => list2
  | x :: rest1 =>
      x :: match list2 with
           | [] => rest1
           | y :: rest2 => y :: mergeLists rest1 rest2
           end
  end.

(** ** src/sql/index.ts *)

(** The callback of [values.map] in [sql]; the state is [parameterValues].
    [parameterValues.push(...serialized.values)] appends in place. *)
Definition sqlExpression (expression : value) : M (list value) string :=
  parameterValues <- readState ;;
  let nextParamID := List.length parameterValues + 1 in
  serialized <- liftResult (buildSql expression nextParamID) ;;
  modify (fun parameterValues => (parameterValues ++ values serialized)%list) ;;
  ret (text serialized).

(** [sql(texts, ...values)].  The call [debugQuery(query)] only logs and is
    left out. *)
Definition sql (texts : list string) (exprs : list value) : result QueryConfig :=
  match mapM sqlExpression exprs [] with
  | Throw e => Throw e
  | Ok (serializedValues, parameterValues) =>
      Ok (mkQuery (join EmptyString (mergeLists texts serializedValues))
                  parameterValues)
  end.

(** [sql.raw]. *)
Definition rawExpression (rawValue : string) : SqlBuilder :=
  rawSqlBuilder rawValue.

(** [sql.safe]. *)
Definition safeExpression (v : value) : SqlBuilder :=
  paramSqlBuilder v.

(** The local variables [values] and [nextParamID] of a spread helper's
    builder function. *)
Record Locals : Type := mkLocals {
  localValues : list value;
  localNextParamID : nat
}.

(** The three statements every spread helper runs per value:
    [const serialized = buildSql(columnValue, nextParamID)],
    [values = [...values, ...serialized.values]],
    [nextParamID += serialized.values.length]. *)
Definition serializeNext (columnValue : value) : M Locals QueryConfig :=
  locals <- readState ;;
  serialized <- liftResult (buildSql columnValue (localNextParamID locals)) ;;
  modify (fun l => mkLocals (localValues l ++ values serialized)%list
                            (localNextParamID l)) ;;
  modify (fun l => mkLocals (localValues l)
                            (localNextParamID l + List.length (values serialized))) ;;
  ret serialized.

(** Runs a builder function body: [let values = []], then the body, then
    [return { text, values }]. *)
Definition runBuilder (body : M Locals string) (nextParamID : nat)
  : result QueryConfig :=
  match body (mkLocals [] nextParamID) with
  | Throw e => Throw e
  | Ok (txt, locals) => Ok (mkQuery txt (localValues locals))
  end.

Definition dquote : string := String "034"%char EmptyString.

(** The message of the [TypeError] of [spreadInsert]. *)
Definition missingValueMessage (columnName : string) : string :=
  "Missing value for column " ++ dquote ++ columnName ++ dquote.

(** The error the spec calls [MissingColumnValue]. *)
Definition MissingColumnValue (columnName : string) : error :=
  TypeError (missingValueMessage columnName).

Section SpreadHelpers.

(** [escapeIdentifier] of ../utils, a pure function of the column name. *)
Variable escapeIdentifier : string -> string.

(** The callback shared by [spreadAnd] and [spreadUpdate]. *)
Definition assignment (entry : string * value) : M Locals string :=
  let '(columnName, columnValue) := entry in
  serialized <- serializeNext columnValue ;;
  ret (escapeIdentifier columnName ++ " = " ++ text serialized).

Definition spreadAnd (record : ValueRecord) : SqlBuilder :=
  let columnValues := entries (filterUndefined record) in
  mkSqlBuilder (runBuilder (
    andChain <- mapM assignment columnValues ;;
    ret ("(" ++ join " AND " andChain ++ ")"))).

(** The innermost callback of [spreadInsert]. *)
Definition insertCell (record : ValueRecord) (columnName : string)
  : M Locals string :=
  let columnValue := get record columnName in
  if isUndefined columnValue
  then throw (MissingColumnValue columnName)
  else serialized <- serializeNext columnValue ;;
       ret (text serialized).

Definition insertRow (columns : list string) (record : ValueRecord)
  : M Locals string :=
  cells <- mapM (insertCell record) columns ;;
  ret (join ", " cells).

Definition spreadInsert (records : list ValueRecord) : SqlBuilder :=
  let columns := extractKeys (map filterUndefined records) in
  mkSqlBuilder (runBuilder (
    let columnList := "(" ++ join ", " (map escapeIdentifier columns) ++ ")" in
    rows <- mapM (insertRow columns) records ;;
    ret (columnList ++ " VALUES " ++ "(" ++ join "), (" rows ++ ")"))).

Definition spreadUpdate (record : ValueRecord) : SqlBuilder :=
  let updateValues := entries (filterUndefined record) in
  mkSqlBuilder (runBuilder (
    settersChain <- mapM assignment updateValues ;;
    ret (join ", " settersChain))).

End SpreadHelpers.

(** ** Specification-side notions *)

(** "L0 + text(E1) + L1 + text(E2) + ... + text(En) + Ln" for the first
    segment [L0], the later segments [Ls] and the expression texts [ts]. *)
Fixpoint interleave (L0 : string) (Ls ts : list string) : string :=
  match ts, Ls with
  | t :: ts', L :: Ls' => L0 ++ t ++ interleave L Ls' ts'
  | _, _ => L0
  end.

(** The number of parameters consumed by a run of serialized fragments. *)
Definition consumed (qs : list QueryConfig) : nat :=
  List.length (List.concat (map values qs)).

(** [qs] are the serializations of [elems], element [k] at the start index
    plus the number of parameters of the elements before it. *)
Definition RunningIndex (serialize : value -> nat -> result QueryConfig)
    (elems : list value) (startIndex : nat) (qs : list QueryConfig) : Prop :=
  List.length qs = List.length elems /\
  forall k, k < List.length elems ->
    serialize (nth k elems VUndefined) (startIndex + consumed (firstn k qs))
    = Ok (nth k qs (mkQuery EmptyString [])).

(** The setter texts [escapeIdentifier(column) = <serialized value>]. *)
Definition setterTexts (escapeIdentifier : string -> string)
    (ents : list (string * value)) (qs : list QueryConfig) : list string :=
  map (fun p => escapeIdentifier (fst (fst p)) ++ " = " ++ text (snd p))
      (combine ents qs).

(** A value whose serialization raises no exception, at any start index. *)
Definition neverThrows (v : value) : Prop :=
  forall i, exists q, buildSql v i = Ok q.

(** The first column, in the order [spreadInsert] visits the cells (record
    by record, column by column), for which a record has no value. *)
Definition missingIn (columns : list string) (record : ValueRecord)
  : option string :=
  find (fun columnName => isUndefined (get record columnName)) columns.

Fixpoint firstMissing (columns : list string) (records : list ValueRecord)
  : option string :=
  match records with
  | [] => None
  | record :: rest =>
      match missingIn columns record with
      | Some columnName => Some columnName
      | None => firstMissing columns rest
      end
  end.

(** The values [spreadInsert] serializes, in the order it visits them. *)
Definition cellValues (columns : list string) (records : list ValueRecord)
  : list value :=
  flat_map (fun record => map (get record) columns) records.

(** Modelled from the spec: an [escapeIdentifier] of the kind section 1
    describes, "double-quote wrapping with internal quote doubling"; it
    instantiates the helpers in the examples. *)
Fixpoint doubleQuotes (s : string) : string :=
  match s with
  | EmptyString => EmptyString
  | String c rest =>
      if Ascii.eqb c "034"
      then String c (String c (doubleQuotes rest))
      else String c (doubleQuotes rest)
  end.

Definition quoteIdentifier (identifier : string) : string :=
  dquote ++ doubleQuotes identifier ++ dquote.

(** *** Placeholder tokens of a query text

    A placeholder token is a dollar sign followed by a maximal, non-empty
    run of decimal digits; [placeholders] lists the indices of the tokens
    of a text from left to right. *)

Inductive scanState : Type :=
| Idle
| Dollar
| Digits (n : nat).

Definition digitOf (c : ascii) : option nat :=
  let n := nat_of_ascii c in
  if ((48 <=? n)%nat && (n <=? 57)%nat)%bool then Some (n - 48) else None.

Definition flush (st : scanState) : list nat :=
  match st with
  | Digits n => [n]
  | _ => []
  end.

Definition step (st : scanState) (c : ascii) : scanState * list nat :=
  if Ascii.eqb c "$" then (Dollar, flush st)
  else
    match digitOf c with
    | Some d =>
        (match st with
         | Idle => Idle
         | Dollar => Digits d
         | Digits n => Digits (10 * n + d)
         end, [])
    | None => (Idle, flush st)
    end.

Fixpoint scan (s : string) (st : scanState) : list nat :=
  match s with
  | EmptyString => flush st
  | String c rest => (snd (step st c) ++ scan rest (fst (step st c)))%list
  end.

Definition placeholders (s : string) : list nat := scan s Idle.

(** A text that, appended to any other, cannot lengthen a placeholder
    token the other ends with: it does not begin with a digit. *)
Definition startsClean (s : string) : bool :=
  match s with
  | EmptyString => true
  | String c _ =>
      match digitOf c with
      | Some _ => false
      | None => true
      end
  end.

Definition noPlaceholders (s : string) : bool :=
  match placeholders s with
  | [] => true
  | _ :: _ => false
  end.

(** A literal piece of text that neither holds nor lengthens a token. *)
Definition inert (s : string) : bool :=
  startsClean s && noPlaceholders s.

(** *** Shapes of interpolated expressions *)

(** Neither a list nor a builder: bound as one parameter. *)
Definition isScalar (v : value) : bool :=
  match v with
  | VArr _ | VBuilder _ => false
  | _ => true
  end.





(** Expressions every value of which is bound as a parameter: scalars,
    lists of such expressions, [sql.safe] of anything, and the spread
    helpers over such expressions, for column names whose escaped form is
    inert.  Neither [sql.raw] nor a builder function of the caller's. *)
Inductive Bound (escapeIdentifier : string -> string) : value -> Prop :=
| Bound_scalar (v : value) :
    isScalar v = true -> Bound escapeIdentifier v
| Bound_list (elems : list value) :
    Forall (Bound escapeIdentifier) elems ->
    Bound escapeIdentifier (VArr elems)
| Bound_safe (v : value) :
    Bound escapeIdentifier (VBuilder (safeExpression v))
| Bound_spreadAnd (record : ValueRecord) :
    Forall (fun entry => inert (escapeIdentifier (fst entry)) = true)
           (filterUndefined record) ->
    Forall (Bound escapeIdentifier) (map snd (filterUndefined record)) ->
    Bound escapeIdentifier (VBuilder (spreadAnd escapeIdentifier record))
| Bound_spreadUpdate (record : ValueRecord) :
    Forall (fun entry => inert (escapeIdentifier (fst entry)) = true)
           (filterUndefined record) ->
    Forall (Bound escapeIdentifier) (map snd (filterUndefined record)) ->
    Bound escapeIdentifier (VBuilder (spreadUpdate escapeIdentifier record))
| Bound_spreadInsert (records : list ValueRecord) :
    Forall (fun columnName => inert (escapeIdentifier columnName) = true)
           (extractKeys (map filterUndefined records)) ->
    Forall (Bound escapeIdentifier)
           (cellValues (extractKeys (map filterUndefined records)) records) ->
    Bound escapeIdentifier (VBuilder (spreadInsert escapeIdentifier records)).

(** The fragments of a serialization are numbered from [i]: each text
    starts clean and its placeholder tokens are [i], [i+1], ... one per
    value. *)
Definition Numbered (i : nat) (q : QueryConfig) : Prop :=
  startsClean (text q) = true /\
  placeholders (text q) = seq i (List.length (values q)).

Definition WellNumbered (v : value) : Prop :=
  forall i q, buildSql v i = Ok q -> Numbered i q.

(** *** Closed forms for scalar values *)

(** The fragments of scalars serialized from index [i]: one placeholder
    each, bound to the scalar. *)
Fixpoint scalarFragments (vs : list value) (i : nat) : list QueryConfig :=
  match vs with
  | [] => []
  | v :: rest => mkQuery (placeholder i) [v] :: scalarFragments rest (S i)
  end.

(** The setters of entries with scalar values, numbered from [i]. *)
Fixpoint scalarSetters (escapeIdentifier : string -> string)
    (ents : list (string * value)) (i : nat) : list string :=
  match ents with
  | [] => []
  | entry :: rest =>
      (escapeIdentifier (fst entry) ++ " = " ++ placeholder i)
        :: scalarSetters escapeIdentifier rest (S i)
  end.

(** [rows] rows of [width] placeholders each, numbered from [i]. *)
Fixpoint scalarRows (width rows i : nat) : list string :=
  match rows with
  | 0 => []
  | S rows' =>
      join ", " (map placeholder (seq i width))
        :: scalarRows width rows' (i + width)
  end.

(** *** Comparing serializations *)

(** Two serializations with the same values, or the same exception. *)
Definition SameValues (r r' : result QueryConfig) : Prop :=
  match r, r' with
  | Ok q, Ok q' => values q = values q'
  | Throw e, Throw e' => e = e'
  | _, _ => False
  end.

Definition SameValuesSeq (r r' : result (list QueryConfig)) : Prop :=
  match r, r' with
  | Ok qs, Ok qs' => map values qs = map values qs'
  | Throw e, Throw e' => e = e'
  | _, _ => False
  end.

(** A value whose serialization yields the same values, or the same
    exception, at every start index. *)
Definition IndexFree (v : value) : Prop :=
  forall i j, SameValues (buildSql v i) (buildSql v j).

(** The values of a result, or the exception. *)
Definition resultValues (r : result QueryConfig) : result (list value) :=
  match r with
  | Ok q => Ok (values q)
  | Throw e => Throw e
  end.

(** The builders of [sql.raw]. *)
Definition isRaw (v : value) : bool :=
  match v with
  | VBuilder (RawFragment _) => true
  | _ => false
  end.

(** *** Plain data and placeholder syntax *)





(** *** Records as objects

    The spread helpers receive references to record objects, which the
    caller may change later.  A heap gives what each record holds at a
    time; a builder is made when the heap is [called] and serialized when
    it is [serialized]. *)



(** The builder function of [spreadInsert] for a column list and the
    records as they are when it runs. *)
Definition insertBuilder (escapeIdentifier : string -> string)
    (columns : list string) (records : list ValueRecord) : SqlBuilder :=
  mkSqlBuilder (runBuilder (
    let columnList := "(" ++ join ", " (map escapeIdentifier columns) ++ ")" in
    rows <- mapM (insertRow columns) records ;;
    ret (columnList ++ " VALUES " ++ "(" ++ join "), (" rows ++ ")"))).




(** ** Strings *)

Lemma append_nil_r (s : string) : s ++ EmptyString = s.
Proof.
  induction s as [|c s IH]; simpl; [reflexivity | now rewrite IH].
Qed.

Lemma join_cons (sep p : string) (ps : list string) :
  join sep (p :: ps) =
  match ps with
  | [] => p
  | _ :: _ => p ++ sep ++ join sep ps
  end.
Proof. destruct ps; reflexivity. Qed.

(** ** The running index *)

Lemma consumed_cons (q : QueryConfig) (qs : list QueryConfig) :
  consumed (q :: qs) = List.length (values q) + consumed qs.
Proof. unfold consumed; simpl. now rewrite List.length_app. Qed.

Section RunningIndexFacts.

Variable serialize : value -> nat -> result QueryConfig.

Lemma serializeElements_length elems :
  forall i qs,
    serializeElements serialize elems i = Ok qs ->
    List.length qs = List.length elems.
Proof.
  induction elems as [|e rest IH]; simpl; intros i qs H.
  - now inversion H.
  - destruct (serialize e i) as [q|err]; [|discriminate].
    destruct (serializeElements serialize rest _) as [qs'|err] eqn:E;
      [|discriminate].
    inversion H; subst; simpl. f_equal. eapply IH; eassumption.
Qed.

Lemma serializeElements_running elems :
  forall i qs,
    serializeElements serialize elems i = Ok qs <->
    RunningIndex serialize elems i qs.
Proof.
  unfold RunningIndex.
  induction elems as [|e rest IH]; intros i qs; simpl.
  - split.
    + intros H; inversion H; subst. split; [reflexivity | intros k Hk; lia].
    + intros [Hlen _]. destruct qs; [reflexivity | discriminate].
  - split.
    + intros H.
      destruct (serialize e i) as [q|err] eqn:Eq; [|discriminate].
      destruct (serializeElements serialize rest _) as [qs'|err] eqn:E;
        [|discriminate].
      inversion H; subst; clear H.
      apply IH in E. destruct E as [Hlen Hnth].
      split; [simpl; now rewrite Hlen|].
      intros [|k] Hk; simpl.
      * unfold consumed; simpl. now rewrite Nat.add_0_r.
      * rewrite consumed_cons, Nat.add_assoc. apply Hnth. lia.
    + intros [Hlen Hnth].
      destruct qs as [|q qs']; [discriminate|].
      assert (H0 := Hnth 0 (Nat.lt_0_succ _)). simpl in H0.
      unfold consumed in H0; simpl in H0. rewrite Nat.add_0_r in H0.
      rewrite H0.
      assert (E : serializeElements serialize rest
                    (i + List.length (values q)) = Ok qs').
      { apply IH. split; [simpl in Hlen; lia|].
        intros k Hk. specialize (Hnth (S k)). simpl in Hnth.
        rewrite consumed_cons, Nat.add_assoc in Hnth. apply Hnth. lia. }
      now rewrite E.
Qed.

End RunningIndexFacts.

(** ** The callbacks, without their state *)

Lemma mapM_cons {S A B} (f : A -> M S B) (a : A) (l : list A) (s : S) :
  mapM f (a :: l) s =
  match f a s with
  | Throw e => Throw e
  | Ok (b, s') =>
      match mapM f l s' with
      | Throw e => Throw e
      | Ok (bs, s'') => Ok (b :: bs, s'')
      end
  end.
Proof.
  simpl. unfold bind, ret.
  destruct (f a s) as [[b s']|e]; [|reflexivity].
  destruct (mapM f l s') as [[bs s'']|e]; reflexivity.
Qed.

Lemma sqlExpression_run (expression : value) (parameterValues : list value) :
  sqlExpression expression parameterValues =
  match buildSql expression (List.length parameterValues + 1) with
  | Throw e => Throw e
  | Ok q => Ok (text q, (parameterValues ++ values q)%list)
  end.
Proof.
  unfold sqlExpression, bind, readState, liftResult, modify, ret; simpl.
  destruct (buildSql expression _); reflexivity.
Qed.

Lemma mapM_sqlExpression (exprs : list value) :
  forall parameterValues,
    mapM sqlExpression exprs parameterValues =
    match serializeElements buildSql exprs (List.length parameterValues + 1) with
    | Throw e => Throw e
    | Ok qs => Ok (map text qs,
                   (parameterValues ++ List.concat (map values qs))%list)
    end.
Proof.
  induction exprs as [|e rest IH]; intros pv.
  - simpl. unfold ret. now rewrite List.app_nil_r.
  - rewrite mapM_cons, sqlExpression_run. simpl.
    destruct (buildSql e (List.length pv + 1)) as [q|err]; [|reflexivity].
    rewrite IH, List.length_app.
    replace (List.length pv + List.length (values q) + 1)
      with (List.length pv + 1 + List.length (values q)) by lia.
    destruct (serializeElements buildSql rest _) as [qs|err]; [|reflexivity].
    simpl. now rewrite List.app_assoc.
Qed.

Lemma serializeNext_run (v : value) (vs : list value) (i : nat) :
  serializeNext v (mkLocals vs i) =
  match buildSql v i with
  | Throw e => Throw e
  | Ok q => Ok (q, mkLocals (vs ++ values q)%list (i + List.length (values q)))
  end.
Proof.
  unfold serializeNext, bind, readState, liftResult, modify, ret; simpl.
  destruct (buildSql v i); reflexivity.
Qed.

Section SpreadFacts.

Variable escapeIdentifier : string -> string.

Lemma assignment_run (entry : string * value) (vs : list value) (i : nat) :
  assignment escapeIdentifier entry (mkLocals vs i) =
  match buildSql (snd entry) i with
  | Throw e => Throw e
  | Ok q => Ok (escapeIdentifier (fst entry) ++ " = " ++ text q,
                mkLocals (vs ++ values q)%list (i + List.length (values q)))
  end.
Proof.
  destruct entry as [c v]. unfold assignment, bind.
  rewrite serializeNext_run. simpl.
  destruct (buildSql v i); reflexivity.
Qed.

Lemma mapM_assignment (ents : list (string * value)) :
  forall vs i,
    mapM (assignment escapeIdentifier) ents (mkLocals vs i) =
    match serializeElements buildSql (map snd ents) i with
    | Throw e => Throw e
    | Ok qs => Ok (setterTexts escapeIdentifier ents qs,
                   mkLocals (vs ++ List.concat (map values qs))%list
                            (i + consumed qs))
    end.
Proof.
  induction ents as [|entry rest IH]; intros vs i.
  - simpl. unfold ret, consumed. simpl.
    now rewrite List.app_nil_r, Nat.add_0_r.
  - rewrite mapM_cons, assignment_run. simpl.
    destruct (buildSql (snd entry) i) as [q|e]; [|reflexivity].
    rewrite IH.
    destruct (serializeElements buildSql (map snd rest) _) as [qs|e];
      [|reflexivity].
    unfold setterTexts. simpl.
    now rewrite consumed_cons, List.app_assoc, Nat.add_assoc.
Qed.

Lemma spreadAnd_run (record : ValueRecord) (i : nat) :
  buildFragment (spreadAnd escapeIdentifier record) i =
  match serializeElements buildSql (map snd (filterUndefined record)) i with
  | Throw e => Throw e
  | Ok qs =>
      Ok (mkQuery
            ("(" ++ join " AND "
                      (setterTexts escapeIdentifier (filterUndefined record) qs)
                 ++ ")")
            (List.concat (map values qs)))
  end.
Proof.
  unfold spreadAnd, mkSqlBuilder, buildFragment, runBuilder, entries, bind.
  rewrite mapM_assignment.
  destruct (serializeElements buildSql _ i); reflexivity.
Qed.

Lemma spreadUpdate_run (record : ValueRecord) (i : nat) :
  buildFragment (spreadUpdate escapeIdentifier record) i =
  match serializeElements buildSql (map snd (filterUndefined record)) i with
  | Throw e => Throw e
  | Ok qs =>
      Ok (mkQuery
            (join ", " (setterTexts escapeIdentifier (filterUndefined record) qs))
            (List.concat (map values qs)))
  end.
Proof.
  unfold spreadUpdate, mkSqlBuilder, buildFragment, runBuilder, entries, bind.
  rewrite mapM_assignment.
  destruct (serializeElements buildSql _ i); reflexivity.
Qed.

End SpreadFacts.

Lemma join_empty_cons (x : string) (l : list string) :
  join EmptyString (x :: l) = x ++ join EmptyString l.
Proof.
  destruct l as [|y l]; simpl; [now rewrite append_nil_r | reflexivity].
Qed.

Lemma join_mergeLists (ts : list string) :
  forall texts,
    List.length texts = S (List.length ts) ->
    join EmptyString (mergeLists texts ts) =
    interleave (hd EmptyString texts) (tl texts) ts.
Proof.
  induction ts as [|t ts' IH]; intros texts Hlen.
  - destruct texts as [|L0 [|L1 Ls]]; try discriminate. reflexivity.
  - destruct texts as [|L0 [|L1 Ls]]; try discriminate.
    simpl in Hlen. injection Hlen as Hlen.
    change (mergeLists (L0 :: L1 :: Ls) (t :: ts'))
      with (L0 :: t :: mergeLists (L1 :: Ls) ts').
    rewrite !join_empty_cons, IH by (simpl; lia). reflexivity.
Qed.

Lemma sql_run (texts : list string) (exprs : list value) :
  sql texts exprs =
  match serializeElements buildSql exprs 1 with
  | Throw e => Throw e
  | Ok qs => Ok (mkQuery (join EmptyString (mergeLists texts (map text qs)))
                         (List.concat (map values qs)))
  end.
Proof.
  unfold sql. rewrite mapM_sqlExpression. simpl.
  destruct (serializeElements buildSql exprs 1); reflexivity.
Qed.

Lemma query_eta (q : QueryConfig) : mkQuery (text q) (values q) = q.
Proof. destruct q; reflexivity. Qed.

(** ** Placeholder tokens *)

Lemma scan_clean_start (s : string) (st : scanState) :
  startsClean s = true ->
  scan s st = (flush st ++ scan s Idle)%list.
Proof.
  destruct s as [|c r]; simpl.
  - intros _. now rewrite List.app_nil_r.
  - unfold step. destruct (digitOf c) eqn:D; [discriminate|]. intros _.
    destruct (Ascii.eqb c "$"); simpl; reflexivity.
Qed.

Lemma scan_app (s1 s2 : string) :
  startsClean s2 = true ->
  forall st, scan (s1 ++ s2) st = (scan s1 st ++ scan s2 Idle)%list.
Proof.
  intros Hc. induction s1 as [|c r IH]; intros st; simpl.
  - now apply scan_clean_start.
  - now rewrite IH, List.app_assoc.
Qed.

Lemma placeholders_app (s1 s2 : string) :
  startsClean s2 = true ->
  placeholders (s1 ++ s2) = (placeholders s1 ++ placeholders s2)%list.
Proof. intros H. unfold placeholders. now apply scan_app. Qed.

Lemma startsClean_app (s1 s2 : string) :
  startsClean s1 = true -> startsClean s2 = true ->
  startsClean (s1 ++ s2) = true.
Proof. destruct s1; simpl; auto. Qed.

Lemma inert_startsClean (s : string) : inert s = true -> startsClean s = true.
Proof. unfold inert. intros H. now apply andb_true_iff in H. Qed.

Lemma inert_placeholders (s : string) : inert s = true -> placeholders s = [].
Proof.
  unfold inert, noPlaceholders. intros H. apply andb_true_iff in H.
  destruct H as [_ H]. destruct (placeholders s); [reflexivity | discriminate].
Qed.

Lemma tail_mul_10 (acc : nat) : Nat.tail_mul 10 acc = 10 * acc.
Proof. apply Nat.tail_mul_spec. Qed.

Lemma scan_digits (d : uint) :
  forall acc,
    scan (NilEmpty.string_of_uint d) (Digits acc) = [Nat.of_uint_acc d acc].
Proof.
  induction d; intros acc; simpl; try reflexivity;
    rewrite IHd, tail_mul_10; do 2 f_equal; lia.
Qed.

Lemma scan_number (d : uint) :
  d <> Nil ->
  scan (NilEmpty.string_of_uint d) Dollar = [Nat.of_uint d].
Proof.
  destruct d; intros Hd; [congruence| ..]; simpl;
    rewrite scan_digits; reflexivity.
Qed.

Lemma to_uint_nonnil (n : nat) : Nat.to_uint n <> Nil.
Proof.
  rewrite <- (DecimalNat.Unsigned.of_to n) at 1.
  rewrite DecimalNat.Unsigned.to_of. apply unorm_nonnil.
Qed.

Lemma placeholders_placeholder (n : nat) : placeholders (placeholder n) = [n].
Proof.
  unfold placeholders, placeholder, showIndex. simpl.
  rewrite scan_number by apply to_uint_nonnil.
  now rewrite DecimalNat.Unsigned.of_to.
Qed.

Lemma placeholders_join (sep : string) (parts : list string) :
  inert sep = true ->
  Forall (fun p => startsClean p = true) parts ->
  startsClean (join sep parts) = true /\
  placeholders (join sep parts) = List.concat (map placeholders parts).
Proof.
  intros Hsep Hparts.
  pose proof (inert_startsClean _ Hsep) as Hs.
  pose proof (inert_placeholders _ Hsep) as Hp.
  induction Hparts as [|p ps Hp1 Hps IH].
  - split; reflexivity.
  - rewrite join_cons. destruct ps as [|p' ps'].
    + simpl. now rewrite List.app_nil_r.
    + destruct IH as [IHc IHp]. split.
      * apply startsClean_app; [assumption|]. now apply startsClean_app.
      * rewrite placeholders_app by now apply startsClean_app.
        rewrite placeholders_app by assumption.
        rewrite Hp, IHp. reflexivity.
Qed.

(** ** Numbered fragments *)

Lemma Numbered_placeholder (i : nat) (v : value) :
  Numbered i (mkQuery (placeholder i) [v]).
Proof.
  split; simpl; [reflexivity | apply placeholders_placeholder].
Qed.

Lemma parenthesized (t : string) :
  startsClean t = true ->
  startsClean ("(" ++ t ++ ")") = true /\
  placeholders ("(" ++ t ++ ")") = placeholders t.
Proof.
  intros Ht. split; [reflexivity|].
  rewrite placeholders_app by (now apply startsClean_app).
  rewrite placeholders_app by reflexivity.
  simpl. now rewrite List.app_nil_r.
Qed.

Lemma numbered_sequence (elems : list value) :
  Forall WellNumbered elems ->
  forall i qs,
    serializeElements buildSql elems i = Ok qs ->
    Forall (fun q => startsClean (text q) = true) qs /\
    List.concat (map placeholders (map text qs)) = seq i (consumed qs).
Proof.
  induction 1 as [|e rest He Hrest IH]; intros i qs Hrun; simpl in Hrun.
  - inversion Hrun; subst. split; [constructor | reflexivity].
  - destruct (buildSql e i) as [q|err] eqn:Eq; [|discriminate].
    destruct (serializeElements buildSql rest _) as [qs'|err] eqn:E;
      [|discriminate].
    inversion Hrun; subst; clear Hrun.
    destruct (He _ _ Eq) as [Hc Hp].
    destruct (IH _ _ E) as [Hcs Hps].
    split; [now constructor|].
    simpl. rewrite consumed_cons, List.seq_app, Hp, Hps. reflexivity.
Qed.

Lemma startsClean_texts (qs : list QueryConfig) :
  Forall (fun q => startsClean (text q) = true) qs ->
  Forall (fun p => startsClean p = true) (map text qs).
Proof. induction 1; simpl; constructor; assumption. Qed.

Lemma WellNumbered_list (elems : list value) :
  Forall WellNumbered elems -> WellNumbered (VArr elems).
Proof.
  intros Hall i q Hq. simpl in Hq.
  destruct (serializeElements buildSql elems i) as [qs|err] eqn:E;
    [|discriminate].
  inversion Hq; subst; clear Hq.
  destruct (numbered_sequence _ Hall _ _ E) as [Hc Hp].
  destruct (placeholders_join ", " (map text qs) eq_refl
              (startsClean_texts _ Hc)) as [Hjc Hjp].
  destruct (parenthesized _ Hjc) as [Hpc Hpp].
  split; cbn [text values]; [exact Hpc|].
  etransitivity; [exact Hpp|]. rewrite Hjp, Hp. reflexivity.
Qed.

Lemma WellNumbered_scalar (v : value) : isScalar v = true -> WellNumbered v.
Proof.
  intros Hs i q Hq.
  destruct v; simpl in Hs; try discriminate; simpl in Hq;
    inversion Hq; subst; apply Numbered_placeholder.
Qed.

Lemma WellNumbered_safe (v : value) : WellNumbered (VBuilder (safeExpression v)).
Proof.
  intros i q Hq. simpl in Hq. inversion Hq; subst. apply Numbered_placeholder.
Qed.

Section NumberedSpread.

Variable escapeIdentifier : string -> string.

Lemma placeholders_setter (name t : string) :
  inert name = true -> startsClean t = true ->
  startsClean (name ++ " = " ++ t) = true /\
  placeholders (name ++ " = " ++ t) = placeholders t.
Proof.
  intros Hn Ht.
  assert (Hmid : startsClean (" = " ++ t) = true) by reflexivity.
  split.
  - apply startsClean_app; [now apply inert_startsClean | exact Hmid].
  - rewrite placeholders_app by exact Hmid.
    rewrite (inert_placeholders _ Hn).
    change (" = " ++ t) with ((" = " ++ EmptyString) ++ t).
    rewrite placeholders_app by exact Ht. reflexivity.
Qed.

Lemma numbered_setters (ents : list (string * value)) :
  Forall (fun entry => inert (escapeIdentifier (fst entry)) = true) ents ->
  forall qs,
    List.length qs = List.length ents ->
    Forall (fun q => startsClean (text q) = true) qs ->
    Forall (fun p => startsClean p = true)
           (setterTexts escapeIdentifier ents qs) /\
    List.concat (map placeholders (setterTexts escapeIdentifier ents qs)) =
    List.concat (map placeholders (map text qs)).
Proof.
  unfold setterTexts.
  induction 1 as [|entry rest Hin Hrest IH]; intros qs Hlen Hqs.
  - destruct qs; [|discriminate]. split; [constructor | reflexivity].
  - destruct qs as [|q qs']; [discriminate|].
    inversion Hqs as [|? ? Hq Hqs']; subst.
    destruct (IH qs') as [IHc IHp]; [simpl in Hlen; lia | assumption |].
    destruct (placeholders_setter _ _ Hin Hq) as [Hsc Hsp].
    cbn [combine map List.concat fst snd].
    split; [constructor; assumption|].
    rewrite Hsp, IHp. reflexivity.
Qed.

Lemma numbered_assignments (record : ValueRecord) (i : nat)
      (qs : list QueryConfig) :
  Forall (fun entry => inert (escapeIdentifier (fst entry)) = true)
         (filterUndefined record) ->
  Forall WellNumbered (map snd (filterUndefined record)) ->
  serializeElements buildSql (map snd (filterUndefined record)) i = Ok qs ->
  Forall (fun p => startsClean p = true)
         (setterTexts escapeIdentifier (filterUndefined record) qs) /\
  List.concat (map placeholders
                 (setterTexts escapeIdentifier (filterUndefined record) qs)) =
  seq i (consumed qs).
Proof.
  intros Hc Hv Hrun.
  destruct (numbered_sequence _ Hv _ _ Hrun) as [Hqc Hqp].
  pose proof (serializeElements_length _ _ _ _ Hrun) as Hlen.
  rewrite length_map in Hlen.
  destruct (numbered_setters _ Hc qs Hlen Hqc) as [Hsc Hsp].
  split; [exact Hsc | now rewrite Hsp].
Qed.

Lemma WellNumbered_spreadAnd (record : ValueRecord) :
  Forall (fun entry => inert (escapeIdentifier (fst entry)) = true)
         (filterUndefined record) ->
  Forall WellNumbered (map snd (filterUndefined record)) ->
  WellNumbered (VBuilder (spreadAnd escapeIdentifier record)).
Proof.
  intros Hc Hv i q Hq.
  change (buildSql (VBuilder (spreadAnd escapeIdentifier record)) i)
    with (buildFragment (spreadAnd escapeIdentifier record) i) in Hq.
  rewrite spreadAnd_run in Hq.
  destruct (serializeElements buildSql _ i) as [qs|err] eqn:E; [|discriminate].
  inversion Hq; subst; clear Hq.
  destruct (numbered_assignments _ _ _ Hc Hv E) as [Hsc Hsp].
  destruct (placeholders_join " AND " _ eq_refl Hsc) as [Hjc Hjp].
  destruct (parenthesized _ Hjc) as [Hpc Hpp].
  split; cbn [text values]; [exact Hpc|].
  etransitivity; [exact Hpp|]. rewrite Hjp, Hsp. reflexivity.
Qed.

Lemma WellNumbered_spreadUpdate (record : ValueRecord) :
  Forall (fun entry => inert (escapeIdentifier (fst entry)) = true)
         (filterUndefined record) ->
  Forall WellNumbered (map snd (filterUndefined record)) ->
  WellNumbered (VBuilder (spreadUpdate escapeIdentifier record)).
Proof.
  intros Hc Hv i q Hq.
  change (buildSql (VBuilder (spreadUpdate escapeIdentifier record)) i)
    with (buildFragment (spreadUpdate escapeIdentifier record) i) in Hq.
  rewrite spreadUpdate_run in Hq.
  destruct (serializeElements buildSql _ i) as [qs|err] eqn:E; [|discriminate].
  inversion Hq; subst; clear Hq.
  destruct (numbered_assignments _ _ _ Hc Hv E) as [Hsc Hsp].
  destruct (placeholders_join ", " _ eq_refl Hsc) as [Hjc Hjp].
  split; cbn [text values]; [exact Hjc|].
  rewrite Hjp, Hsp. reflexivity.
Qed.

End NumberedSpread.

(** ** [spreadInsert] *)

Lemma isUndefined_true (v : value) : isUndefined v = true <-> v = VUndefined.
Proof. destruct v; simpl; split; congruence. Qed.

Lemma insertCell_run (record : ValueRecord) (columnName : string)
      (vs : list value) (i : nat) :
  insertCell record columnName (mkLocals vs i) =
  if isUndefined (get record columnName)
  then Throw (MissingColumnValue columnName)
  else match buildSql (get record columnName) i with
       | Throw e => Throw e
       | Ok q => Ok (text q,
                     mkLocals (vs ++ values q)%list (i + List.length (values q)))
       end.
Proof.
  unfold insertCell.
  destruct (isUndefined (get record columnName)); [reflexivity|].
  unfold bind. rewrite serializeNext_run.
  destruct (buildSql (get record columnName) i); reflexivity.
Qed.

Lemma insertRow_run (columns : list string) (record : ValueRecord)
      (st : Locals) :
  insertRow columns record st =
  match mapM (insertCell record) columns st with
  | Throw e => Throw e
  | Ok (cells, st') => Ok (join ", " cells, st')
  end.
Proof.
  unfold insertRow, bind, ret.
  destruct (mapM (insertCell record) columns st) as [[cells st']|e];
    reflexivity.
Qed.

Lemma spreadInsert_run (escapeIdentifier : string -> string)
      (records : list ValueRecord) (i : nat) :
  buildFragment (spreadInsert escapeIdentifier records) i =
  let columns := extractKeys (map filterUndefined records) in
  match mapM (insertRow columns) records (mkLocals [] i) with
  | Throw e => Throw e
  | Ok (rows, st) =>
      Ok (mkQuery
            (("(" ++ join ", " (map escapeIdentifier columns) ++ ")")
               ++ " VALUES " ++ "(" ++ join "), (" rows ++ ")")
            (localValues st))
  end.
Proof.
  unfold spreadInsert, mkSqlBuilder, buildFragment, runBuilder, bind, ret.
  cbv zeta.
  destruct (mapM _ records (mkLocals [] i)) as [[rows st]|e]; reflexivity.
Qed.

(** A row with a missing value throws, whatever the cells before it do. *)
Lemma cells_throw (record : ValueRecord) (columns : list string) :
  (exists c, In c columns /\ get record c = VUndefined) ->
  forall st, exists e, mapM (insertCell record) columns st = Throw e.
Proof.
  induction columns as [|c0 rest IH]; intros (c & Hin & Hc) [vs i].
  - destruct Hin.
  - rewrite mapM_cons, insertCell_run.
    destruct (isUndefined (get record c0)) eqn:U; [eauto|].
    destruct (buildSql (get record c0) i) as [q|e]; [|eauto].
    destruct Hin as [->|Hin].
    + rewrite Hc in U. discriminate.
    + destruct (IH (ex_intro _ c (conj Hin Hc))
                  (mkLocals (vs ++ values q)%list (i + List.length (values q))))
        as [e He].
      rewrite He. eauto.
Qed.

Lemma rows_throw (columns : list string) (records : list ValueRecord) :
  (exists r c, In r records /\ In c columns /\ get r c = VUndefined) ->
  forall st, exists e, mapM (insertRow columns) records st = Throw e.
Proof.
  induction records as [|r0 rest IH]; intros (r & c & Hr & Hc & Hu) st.
  - destruct Hr.
  - rewrite mapM_cons, insertRow_run.
    destruct (mapM (insertCell r0) columns st) as [[cells st']|e] eqn:E;
      [|eauto].
    destruct Hr as [->|Hr].
    + destruct (cells_throw r columns (ex_intro _ c (conj Hc Hu)) st) as [e He].
      congruence.
    + destruct (IH (ex_intro _ r (ex_intro _ c (conj Hr (conj Hc Hu)))) st')
        as [e He].
      rewrite He. eauto.
Qed.

(** When the values themselves serialize, the cells of a record either all
    serialize or stop at its first missing column. *)
Lemma cells_run (record : ValueRecord) (columns : list string) :
  (forall c, neverThrows (get record c)) ->
  forall st,
    match missingIn columns record with
    | Some c => mapM (insertCell record) columns st
                = Throw (MissingColumnValue c)
    | None => exists cells st', mapM (insertCell record) columns st
                                = Ok (cells, st')
    end.
Proof.
  intros Hv. unfold missingIn.
  induction columns as [|c0 rest IH]; intros [vs i].
  - simpl. unfold ret. eauto.
  - rewrite mapM_cons, insertCell_run. simpl find.
    destruct (isUndefined (get record c0)) eqn:U; [reflexivity|].
    destruct (Hv c0 i) as [q Hq]. rewrite Hq.
    specialize (IH (mkLocals (vs ++ values q)%list
                             (i + List.length (values q)))).
    destruct (find _ rest) as [c|].
    + now rewrite IH.
    + destruct IH as (cells & st' & E). rewrite E. eauto.
Qed.

Lemma rows_run (columns : list string) (records : list ValueRecord) :
  (forall r c, In r records -> neverThrows (get r c)) ->
  forall st,
    match firstMissing columns records with
    | Some c => mapM (insertRow columns) records st
                = Throw (MissingColumnValue c)
    | None => exists rows st', mapM (insertRow columns) records st
                               = Ok (rows, st')
    end.
Proof.
  induction records as [|r0 rest IH]; intros Hv st.
  - simpl. unfold ret. eauto.
  - rewrite mapM_cons, insertRow_run. simpl firstMissing.
    pose proof (cells_run r0 columns (fun c => Hv r0 c (or_introl eq_refl)) st)
      as Hcells.
    destruct (missingIn columns r0) as [c|].
    + now rewrite Hcells.
    + destruct Hcells as (cells & st' & E). rewrite E.
      specialize (IH (fun r c H => Hv r c (or_intror H)) st').
      destruct (firstMissing columns rest) as [c|].
      * now rewrite IH.
      * destruct IH as (rows & st'' & E'). rewrite E'. eauto.
Qed.

Lemma firstMissing_some (columns : list string) (records : list ValueRecord)
      (c : string) :
  firstMissing columns records = Some c ->
  exists r, In r records /\ In c columns /\ get r c = VUndefined.
Proof.
  induction records as [|r0 rest IH]; simpl; [discriminate|].
  destruct (missingIn columns r0) as [c0|] eqn:E.
  - intros H; inversion H; subst. unfold missingIn in E.
    apply find_some in E. destruct E as [Hin Hu].
    exists r0. split; [now left|]. split; [assumption|].
    now apply isUndefined_true.
  - intros H. destruct (IH H) as (r & Hr & Hc & Hu).
    exists r. split; [now right | now split].
Qed.

Lemma firstMissing_exists (columns : list string) (records : list ValueRecord) :
  (exists r c, In r records /\ In c columns /\ get r c = VUndefined) ->
  exists c, firstMissing columns records = Some c.
Proof.
  induction records as [|r0 rest IH]; intros (r & c & Hr & Hc & Hu).
  - destruct Hr.
  - simpl. destruct (missingIn columns r0) as [c0|] eqn:E; [eauto|].
    destruct Hr as [->|Hr].
    + unfold missingIn in E.
      pose proof (find_none _ _ E c Hc) as Hn. simpl in Hn.
      rewrite Hu in Hn. discriminate.
    + apply IH. eauto.
Qed.

Lemma serializeElements_throw (serialize : value -> nat -> result QueryConfig)
      (e : value) (after : list value) :
  (forall i, exists err, serialize e i = Throw err) ->
  forall before i,
    exists err, serializeElements serialize (before ++ e :: after)%list i
                = Throw err.
Proof.
  intros He. induction before as [|b rest IH]; intros i; simpl.
  - destruct (He i) as [err ->]. eauto.
  - destruct (serialize b i) as [q|err]; [|eauto].
    destruct (IH (i + List.length (values q))) as [err ->]. eauto.
Qed.

Lemma addKey_in (key : string) (keys : list string) (c : string) :
  In c (addKey keys key) <-> In c keys \/ c = key.
Proof.
  unfold addKey. destruct (existsb (String.eqb key) keys) eqn:E.
  - split; [auto|]. intros [H| ->]; [assumption|].
    apply existsb_exists in E. destruct E as (k & Hk & Heq).
    apply String.eqb_eq in Heq. now subst.
  - rewrite in_app_iff. simpl. intuition congruence.
Qed.

Lemma addKeys_in (ks : list string) :
  forall keys c, In c (fold_left addKey ks keys) <-> In c keys \/ In c ks.
Proof.
  induction ks as [|k rest IH]; intros keys c; simpl.
  - tauto.
  - rewrite IH, addKey_in. intuition congruence.
Qed.

Lemma extractKeys_in (objects : list ValueRecord) (c : string) :
  In c (extractKeys objects) <->
  exists object, In object objects /\ In c (map fst object).
Proof.
  unfold extractKeys.
  assert (G : forall keys,
             In c (fold_left
                     (fun keys object => fold_left addKey (map fst object) keys)
                     objects keys) <->
             In c keys \/ exists object, In object objects /\ In c (map fst object)).
  { induction objects as [|o rest IH]; intros keys; simpl.
    - split; [auto|]. intros [H|(o & [] & _)]; assumption.
    - rewrite IH, addKeys_in. split.
      + intros [[H|H]|(o' & Ho' & Hc)]; eauto 6.
      + intros [H|(o' & [->|Ho'] & Hc)]; eauto 6. }
  rewrite G. simpl. split; [intros [[]|H]; exact H | auto].
Qed.

(** A column is in the column set exactly when some record holds a value
    other than [undefined] under that name. *)
Lemma columns_in (records : list ValueRecord) (c : string) :
  In c (extractKeys (map filterUndefined records)) <->
  exists r v, In r records /\ In (c, v) r /\ isUndefined v = false.
Proof.
  rewrite extractKeys_in. split.
  - intros (o & Ho & Hc). apply in_map_iff in Ho. destruct Ho as (r & <- & Hr).
    apply in_map_iff in Hc. destruct Hc as ([c' v] & <- & Hin).
    unfold filterUndefined in Hin. apply filter_In in Hin.
    destruct Hin as [Hin Hv]. simpl in Hv.
    exists r, v. split; [assumption|]. split; [assumption|].
    now destruct (isUndefined v).
  - intros (r & v & Hr & Hin & Hv).
    exists (filterUndefined r). split; [now apply in_map|].
    apply in_map_iff. exists (c, v). split; [reflexivity|].
    unfold filterUndefined. apply filter_In. split; [assumption|].
    simpl. now rewrite Hv.
Qed.

Lemma cells_numbered (record : ValueRecord) (columns : list string) :
  Forall WellNumbered (map (get record) columns) ->
  forall vs i cells st',
    mapM (insertCell record) columns (mkLocals vs i) = Ok (cells, st') ->
    exists ws,
      st' = mkLocals (vs ++ ws)%list (i + List.length ws) /\
      Forall (fun p => startsClean p = true) cells /\
      List.concat (map placeholders cells) = seq i (List.length ws).
Proof.
  induction columns as [|c0 rest IH]; intros Hv vs i cells st' Hrun.
  - simpl in Hrun. unfold ret in Hrun. inversion Hrun; subst.
    exists []. simpl. rewrite List.app_nil_r, Nat.add_0_r.
    repeat split; constructor.
  - simpl in Hv. inversion Hv as [|? ? Hv0 Hvr]; subst.
    rewrite mapM_cons, insertCell_run in Hrun.
    destruct (isUndefined (get record c0)); [discriminate|].
    destruct (buildSql (get record c0) i) as [q|e] eqn:Eq; [|discriminate].
    destruct (mapM (insertCell record) rest _) as [[cs st'']|e] eqn:E;
      [|discriminate].
    inversion Hrun; subst; clear Hrun.
    destruct (IH Hvr _ _ _ _ E) as (ws & -> & Hc & Hp).
    destruct (Hv0 _ _ Eq) as [Hqc Hqp].
    exists (values q ++ ws)%list.
    rewrite List.length_app, List.app_assoc, Nat.add_assoc.
    split; [reflexivity|]. split; [now constructor|].
    simpl. now rewrite List.seq_app, Hqp, Hp.
Qed.

Lemma rows_numbered (columns : list string) (records : list ValueRecord) :
  Forall WellNumbered (cellValues columns records) ->
  forall vs i rows st',
    mapM (insertRow columns) records (mkLocals vs i) = Ok (rows, st') ->
    exists ws,
      st' = mkLocals (vs ++ ws)%list (i + List.length ws) /\
      Forall (fun p => startsClean p = true) rows /\
      List.concat (map placeholders rows) = seq i (List.length ws).
Proof.
  induction records as [|r0 rest IH]; intros Hv vs i rows st' Hrun.
  - simpl in Hrun. unfold ret in Hrun. inversion Hrun; subst.
    exists []. simpl. rewrite List.app_nil_r, Nat.add_0_r.
    repeat split; constructor.
  - unfold cellValues in Hv. simpl in Hv. apply Forall_app in Hv.
    destruct Hv as [Hv0 Hvr].
    rewrite mapM_cons, insertRow_run in Hrun.
    destruct (mapM (insertCell r0) columns _) as [[cells st0]|e] eqn:E0;
      [|discriminate].
    destruct (cells_numbered _ _ Hv0 _ _ _ _ E0) as (ws0 & -> & Hc0 & Hp0).
    destruct (mapM (insertRow columns) rest _) as [[rs st'']|e] eqn:E;
      [|discriminate].
    inversion Hrun; subst; clear Hrun.
    destruct (IH Hvr _ _ _ _ E) as (ws & -> & Hc & Hp).
    destruct (placeholders_join ", " cells eq_refl Hc0) as [Hjc Hjp].
    exists (ws0 ++ ws)%list.
    rewrite List.length_app, List.app_assoc, Nat.add_assoc.
    split; [reflexivity|]. split; [now constructor|].
    simpl. now rewrite List.seq_app, Hjp, Hp0, Hp.
Qed.

Lemma insert_text_placeholders (J1 J2 : string) :
  startsClean J1 = true -> startsClean J2 = true -> placeholders J1 = [] ->
  placeholders (("(" ++ J1 ++ ")") ++ " VALUES " ++ "(" ++ J2 ++ ")")
  = placeholders J2.
Proof.
  intros H1 H2 Hp.
  destruct (parenthesized _ H1) as [_ Hp1].
  destruct (parenthesized _ H2) as [Hc2 Hp2].
  rewrite placeholders_app by reflexivity.
  rewrite Hp1, Hp.
  change (" VALUES " ++ "(" ++ J2 ++ ")")
    with ((" VALUES " ++ EmptyString) ++ "(" ++ J2 ++ ")").
  rewrite placeholders_app by exact Hc2.
  rewrite Hp2. reflexivity.
Qed.

Lemma concat_placeholders_inert (f : string -> string) (names : list string) :
  Forall (fun name => inert (f name) = true) names ->
  Forall (fun p => startsClean p = true) (map f names) /\
  List.concat (map placeholders (map f names)) = [].
Proof.
  induction 1 as [|n rest Hn Hrest [IHc IHp]]; simpl.
  - split; [constructor | reflexivity].
  - split; [constructor; [now apply inert_startsClean | assumption]|].
    now rewrite (inert_placeholders _ Hn), IHp.
Qed.

Lemma WellNumbered_spreadInsert (escapeIdentifier : string -> string)
      (records : list ValueRecord) :
  Forall (fun columnName => inert (escapeIdentifier columnName) = true)
         (extractKeys (map filterUndefined records)) ->
  Forall WellNumbered
         (cellValues (extractKeys (map filterUndefined records)) records) ->
  WellNumbered (VBuilder (spreadInsert escapeIdentifier records)).
Proof.
  intros Hc Hv i q Hq.
  change (buildSql (VBuilder (spreadInsert escapeIdentifier records)) i)
    with (buildFragment (spreadInsert escapeIdentifier records) i) in Hq.
  rewrite spreadInsert_run in Hq. cbv zeta in Hq.
  destruct (mapM _ records (mkLocals [] i)) as [[rows st]|e] eqn:E;
    [|discriminate].
  inversion Hq; subst; clear Hq.
  destruct (rows_numbered _ _ Hv _ _ _ _ E) as (ws & -> & Hrc & Hrp).
  destruct (concat_placeholders_inert _ _ Hc) as [Hnc Hnp].
  destruct (placeholders_join ", " _ eq_refl Hnc) as [Hj1c Hj1p].
  destruct (placeholders_join "), (" _ eq_refl Hrc) as [Hj2c Hj2p].
  split; cbn [text values localValues]; [reflexivity|].
  etransitivity.
  - apply insert_text_placeholders; [assumption | assumption|].
    now rewrite Hj1p.
  - rewrite Hj2p, Hrp. reflexivity.
Qed.

(** Every bound expression serializes to numbered fragments. *)
Lemma Bound_WellNumbered (escapeIdentifier : string -> string) :
  forall v, Bound escapeIdentifier v -> WellNumbered v.
Proof.
  fix IH 2. intros v H.
  assert (IHs : forall l, Forall (Bound escapeIdentifier) l ->
                          Forall WellNumbered l).
  { fix IHl 2. intros l Hl. destruct Hl as [|x l' Hx Hl'].
    - constructor.
    - constructor; [apply IH; exact Hx | apply IHl; exact Hl']. }
  destruct H as [v Hs|elems Hall|v|record Hc Hall|record Hc Hall
                 |records Hc Hall].
  - now apply WellNumbered_scalar.
  - apply WellNumbered_list. now apply IHs.
  - apply WellNumbered_safe.
  - apply WellNumbered_spreadAnd; [assumption | now apply IHs].
  - apply WellNumbered_spreadUpdate; [assumption | now apply IHs].
  - apply WellNumbered_spreadInsert; [assumption | now apply IHs].
Qed.

(** ** The text of a query *)

Lemma mergeLists_placeholders (texts : list string) :
  Forall (fun L => noPlaceholders L = true) texts ->
  forall ts,
    List.concat (map placeholders (mergeLists texts ts)) =
    List.concat (map placeholders ts).
Proof.
  assert (Hnil : forall L, noPlaceholders L = true -> placeholders L = []).
  { unfold noPlaceholders. intros L H.
    destruct (placeholders L); [reflexivity | discriminate]. }
  induction 1 as [|L rest HL Hrest IH]; intros ts; [reflexivity|].
  simpl. rewrite (Hnil _ HL). simpl. destruct ts as [|t ts'].
  - clear IH. induction Hrest as [|L' rest' HL' _ IH']; [reflexivity|].
    simpl. now rewrite (Hnil _ HL').
  - simpl. now rewrite IH.
Qed.

Lemma mergeLists_clean (l1 : list string) :
  forall l2,
    Forall (fun p => startsClean p = true) l1 ->
    Forall (fun p => startsClean p = true) l2 ->
    Forall (fun p => startsClean p = true) (mergeLists l1 l2).
Proof.
  induction l1 as [|x r1 IH]; intros l2 H1 H2; [exact H2|].
  inversion H1; subst. simpl. constructor; [assumption|].
  destruct l2 as [|y r2]; [assumption|].
  inversion H2; subst. constructor; [assumption|]. now apply IH.
Qed.

Lemma placeholders_pieces (pieces : list string) :
  Forall (fun p => startsClean p = true) (tl pieces) ->
  placeholders (join EmptyString pieces) =
  List.concat (map placeholders pieces).
Proof.
  destruct pieces as [|p rest]; intros H; [reflexivity|].
  simpl in H. rewrite join_empty_cons.
  destruct (placeholders_join EmptyString rest eq_refl H) as [Hc Hp].
  rewrite placeholders_app by exact Hc. now rewrite Hp.
Qed.

Lemma mergeLists_tl_clean (texts ts : list string) :
  Forall (fun p => startsClean p = true) (tl texts) ->
  Forall (fun p => startsClean p = true) ts ->
  Forall (fun p => startsClean p = true) (tl (mergeLists texts ts)).
Proof.
  intros H1 H2. destruct texts as [|L0 Ls]; simpl in *.
  - destruct ts; simpl; [constructor | now inversion H2].
  - destruct ts as [|t ts']; [assumption|].
    inversion H2; subst. constructor; [assumption|].
    now apply mergeLists_clean.
Qed.

(** ** Shapes *)




Lemma serializeElements_app (serialize : value -> nat -> result QueryConfig)
      (l1 l2 : list value) :
  forall i,
    serializeElements serialize (l1 ++ l2)%list i =
    match serializeElements serialize l1 i with
    | Throw e => Throw e
    | Ok qs1 =>
        match serializeElements serialize l2 (i + consumed qs1) with
        | Throw e => Throw e
        | Ok qs2 => Ok (qs1 ++ qs2)%list
        end
    end.
Proof.
  induction l1 as [|e rest IH]; intros i; simpl.
  - unfold consumed; simpl. rewrite Nat.add_0_r.
    destruct (serializeElements serialize l2 i); reflexivity.
  - destruct (serialize e i) as [q|err]; [|reflexivity].
    rewrite IH.
    destruct (serializeElements serialize rest _) as [qs1|err]; [|reflexivity].
    rewrite consumed_cons, Nat.add_assoc.
    destruct (serializeElements serialize l2 _); reflexivity.
Qed.


(** * The claims *)

(** ** C1 *)

(** C1, as amended.  When the literal segments of the template hold no
    placeholder token and no segment after the first begins with a digit,
    and every interpolated expression is bound (a scalar, a list, [sql.safe]
    or a spread helper over such expressions with inert escaped column
    names; no [sql.raw], no builder function of the caller's), the
    placeholder tokens of the text of the query [sql] returns are exactly
    [$1 ... $k] from left to right, [k] the number of values: none is
    skipped or duplicated, their number is [values.length], and the token
    at position [k] carries the index of [values[k-1]]. *)
Theorem bound_query_placeholders
    (escapeIdentifier : string -> string)
    (texts : list string) (exprs : list value) (q : QueryConfig) :
  Forall (fun L => noPlaceholders L = true) texts ->
  Forall (fun L => startsClean L = true) (tl texts) ->
  Forall (Bound escapeIdentifier) exprs ->
  sql texts exprs = Ok q ->
  placeholders (text q) = seq 1 (List.length (values q)) /\
  NoDup (placeholders (text q)) /\
  List.length (placeholders (text q)) = List.length (values q) /\
  forall k, k < List.length (values q) ->
            nth k (placeholders (text q)) 0 = S k.
Proof.
  intros Hnp Hclean Hbound Hsql.
  assert (Heq : placeholders (text q) = seq 1 (List.length (values q))).
  { rewrite sql_run in Hsql.
    destruct (serializeElements buildSql exprs 1) as [qs|err] eqn:E;
      [|discriminate].
    inversion Hsql; subst; clear Hsql. cbn [text values].
    assert (Hwn : Forall WellNumbered exprs).
    { eapply Forall_impl; [|exact Hbound].
      intros v Hv. eapply Bound_WellNumbered; exact Hv. }
    destruct (numbered_sequence _ Hwn _ _ E) as [Hc Hp].
    rewrite placeholders_pieces
      by (apply mergeLists_tl_clean;
          [assumption | now apply startsClean_texts]).
    rewrite mergeLists_placeholders by assumption.
    exact Hp. }
  rewrite Heq. split; [reflexivity|]. split; [apply seq_NoDup|].
  split; [apply length_seq|].
  intros k Hk. now rewrite seq_nth.
Qed.

(** The amended C1 at [SELECT * FROM users WHERE id = ${7} AND
    ${spreadAnd({ name: "John", tags: ["a", "b"] })}]. *)
Lemma bound_query_placeholders_witness :
  placeholders
    (text (mkQuery
       (String.concat EmptyString
          ["SELECT * FROM users WHERE id = "; "$1"; " AND (";
           dquote; "name"; dquote; " = $2 AND "; dquote; "tags"; dquote;
           " = ($3, $4))"])
       [VNum 7; VStr "John"; VStr "a"; VStr "b"]))
  = seq 1 4.
Proof.
  refine (proj1 (bound_query_placeholders quoteIdentifier
            ["SELECT * FROM users WHERE id = "; " AND "; EmptyString]
            [VNum 7;
             VBuilder (spreadAnd quoteIdentifier
                         [("name", VStr "John");
                          ("tags", VArr [VStr "a"; VStr "b"])])]
            _ _ _ _ _)).
  - repeat constructor.
  - repeat constructor.
  - constructor; [now apply Bound_scalar|].
    constructor; [|constructor].
    apply Bound_spreadAnd; simpl.
    + repeat constructor.
    + constructor; [now apply Bound_scalar|].
      constructor; [|constructor].
      apply Bound_list. repeat constructor.
  - reflexivity.
Defined.

(** C1 as stated fails: [sql`SELECT $1`] returns its one literal segment,
    which holds the placeholder token [$1], with no value; so does
    [sql`SELECT ${sql.raw("$1")}`]; and [sql`a = ${7}0`] returns the text
    [a = $10], whose only token has index 10, with one value. *)
Lemma placeholders_not_always_numbered :
  (exists q,
      sql ["SELECT $1"] [] = Ok q /\
      values q = [] /\ placeholders (text q) = [1] /\
      List.length (nodup Nat.eq_dec (placeholders (text q)))
      <> List.length (values q)) /\
  (exists q,
      sql ["SELECT "; EmptyString] [VBuilder (rawExpression "$1")] = Ok q /\
      values q = [] /\ placeholders (text q) = [1]) /\
  (exists q,
      sql ["a = "; "0"] [VNum 7] = Ok q /\
      values q = [VNum 7] /\ placeholders (text q) = [10]).
Proof.
  split; [|split].
  - eexists. split; [reflexivity|]. simpl.
    repeat split; try reflexivity. discriminate.
  - eexists. split; [reflexivity|]. simpl. split; reflexivity.
  - eexists. split; [reflexivity|]. simpl. split; reflexivity.
Qed.

(** ** C2 *)










(** ** C3 *)

(** C3.  For a template with one more literal segment than expressions,
    [sql] returns a query exactly when every expression serializes, each
    at index 1 plus the number of values of the expressions before it;
    the text is then [L0 + text(E1) + L1 + ... + text(En) + Ln] and the
    values are the expressions' values concatenated in that order. *)
Theorem sql_interleaves_in_order
    (texts : list string) (exprs : list value) (q : QueryConfig) :
  List.length texts = S (List.length exprs) ->
  (sql texts exprs = Ok q <->
   exists qs,
     RunningIndex buildSql exprs 1 qs /\
     text q = interleave (hd EmptyString texts) (tl texts) (map text qs) /\
     values q = List.concat (map values qs)).
Proof.
  intros Hlen. rewrite sql_run. split.
  - destruct (serializeElements buildSql exprs 1) as [qs|err] eqn:E;
      [|discriminate].
    intros H; inversion H; subst; clear H. exists qs.
    split; [now apply serializeElements_running|].
    split; [|reflexivity]. cbn [text].
    apply join_mergeLists. rewrite length_map.
    etransitivity; [exact Hlen|]. f_equal. symmetry.
    exact (serializeElements_length _ _ _ _ E).
  - intros (qs & Hrun & Ht & Hv).
    apply serializeElements_running in Hrun. rewrite Hrun.
    rewrite join_mergeLists.
    + rewrite <- Ht, <- Hv. now rewrite query_eta.
    + rewrite length_map.
      etransitivity; [exact Hlen|]. f_equal. symmetry.
      exact (serializeElements_length _ _ _ _ Hrun).
Qed.

(** C3 at [sql`SELECT ${1} FROM t WHERE c IN ${["a", "b"]} AND d = ${null}`]. *)
Lemma sql_interleaves_in_order_witness :
  exists qs,
    RunningIndex buildSql [VNum 1; VArr [VStr "a"; VStr "b"]; VNull] 1 qs /\
    "SELECT $1 FROM t WHERE c IN ($2, $3) AND d = $4"
    = interleave "SELECT " [" FROM t WHERE c IN "; " AND d = "; EmptyString]
                 (map text qs) /\
    [VNum 1; VStr "a"; VStr "b"; VNull] = List.concat (map values qs).
Proof.
  apply (proj1 (sql_interleaves_in_order
                  ["SELECT "; " FROM t WHERE c IN "; " AND d = "; EmptyString]
                  [VNum 1; VArr [VStr "a"; VStr "b"]; VNull]
                  (mkQuery "SELECT $1 FROM t WHERE c IN ($2, $3) AND d = $4"
                           [VNum 1; VStr "a"; VStr "b"; VNull])
                  eq_refl)).
  reflexivity.
Defined.

(** ** C4 *)

Lemma neverThrows_scalar (v : value) : isScalar v = true -> neverThrows v.
Proof.
  intros Hs i. destruct v; simpl in Hs; try discriminate; simpl; eauto.
Qed.

Lemma get_scalar (record : ValueRecord) (c : string) :
  Forall (fun entry => isScalar (snd entry) = true) record ->
  isScalar (get record c) = true.
Proof.
  induction 1 as [|[k v] rest Hv Hrest IH]; simpl.
  - unfold inherited. now destruct (existsb _ objectPrototypeMembers).
  - destruct (String.eqb k c); assumption.
Qed.

Lemma get_inherited (record : ValueRecord) (c : string) :
  In c objectPrototypeMembers -> ~ In c (map fst record) ->
  get record c = VObject c.
Proof.
  intros Hc. induction record as [|[k v] rest IH]; intros Hn; simpl.
  - unfold inherited.
    assert (E : existsb (String.eqb c) objectPrototypeMembers = true).
    { apply existsb_exists. exists c. split; [exact Hc|].
      apply String.eqb_refl. }
    now rewrite E.
  - simpl in Hn. destruct (String.eqb k c) eqn:E.
    + apply String.eqb_eq in E. subst. exfalso. apply Hn. now left.
    + apply IH. intros Hin. apply Hn. now right.
Qed.

(** C4, where the code departs from it.  [record[columnName]] finds the
    members a record inherits from [Object.prototype]: for a column named
    like one of them, a record without a value of its own reads the
    inherited member, which is not [undefined].  So for
    [spreadInsert({ constructor: 1 }, {})] the second record omits the
    column [constructor] of the column set, yet the builder does not throw:
    at every index it returns two rows and binds the inherited member as
    the value of the second, and [sql] returns a query. *)
Theorem spreadInsert_inherited_column
    (escapeIdentifier : string -> string) (i : nat) :
  (forall record c,
      In c objectPrototypeMembers -> ~ In c (map fst record) ->
      get record c = VObject c /\ isUndefined (get record c) = false) /\
  extractKeys (map filterUndefined [[("constructor", VNum 1)]; []])
  = ["constructor"] /\
  get [] "constructor" = VObject "constructor" /\
  buildFragment
    (spreadInsert escapeIdentifier [[("constructor", VNum 1)]; []]) i
  = Ok (mkQuery
          (("(" ++ escapeIdentifier "constructor" ++ ")")
             ++ " VALUES "
             ++ "(" ++ (placeholder i ++ "), (" ++ placeholder (i + 1)) ++ ")")
          [VNum 1; VObject "constructor"]) /\
  (forall L0 L1,
      sql [L0; L1]
          [VBuilder (spreadInsert escapeIdentifier
                       [[("constructor", VNum 1)]; []])]
      = Ok (mkQuery
              (L0 ++ (("(" ++ escapeIdentifier "constructor" ++ ")")
                        ++ " VALUES "
                        ++ "(" ++ (placeholder 1 ++ "), (" ++ placeholder 2)
                        ++ ")")
                  ++ L1)
              [VNum 1; VObject "constructor"])).
Proof.
  split.
  { intros record c Hc Hn. rewrite (get_inherited _ _ Hc Hn).
    split; reflexivity. }
  split; [reflexivity|]. split; [reflexivity|]. split; [reflexivity|].
  intros L0 L1. rewrite sql_run. reflexivity.
Qed.

Lemma append_char_inj (a : ascii) (c c' : string) :
  c ++ String a EmptyString = c' ++ String a EmptyString -> c = c'.
Proof.
  revert c'. induction c as [|x c IH]; intros [|y c'] H; simpl in H.
  - reflexivity.
  - inversion H as [[Ha Hrest]]. destruct c'; discriminate.
  - inversion H as [[Ha Hrest]]. destruct c; discriminate.
  - inversion H; subst. f_equal. now apply IH.
Qed.

(** X15.  When [record[c]] is [undefined] for a record passed to
    [spreadInsert] and a column [c] under which another record holds a
    value other than [undefined], serializing the builder throws at every
    start index, so that [sql] throws instead of returning a query; and
    when the values of the records themselves serialize, the exception is
    the [TypeError] whose message is [Missing value for column "c1"], for
    the first column [c1], record by record, that reads [undefined];
    different columns give different messages. *)
Theorem spreadInsert_missing_value
    (escapeIdentifier : string -> string)
    (records : list ValueRecord) (r r' : ValueRecord) (c : string) (v : value) :
  In r records -> In r' records ->
  In (c, v) r' -> isUndefined v = false ->
  get r c = VUndefined ->
  (forall i, exists e,
      buildFragment (spreadInsert escapeIdentifier records) i = Throw e) /\
  (forall texts before after, exists e,
      sql texts (before ++ VBuilder (spreadInsert escapeIdentifier records)
                          :: after)%list = Throw e) /\
  ((forall r0 c0, In r0 records -> neverThrows (get r0 c0)) ->
   exists c1,
     firstMissing (extractKeys (map filterUndefined records)) records = Some c1 /\
     (exists r1, In r1 records /\ get r1 c1 = VUndefined) /\
     forall i, buildFragment (spreadInsert escapeIdentifier records) i
               = Throw (TypeError
                          ("Missing value for column "
                             ++ String "034" (c1 ++ String "034" EmptyString))))
  /\
  (forall c1 c2, MissingColumnValue c1 = MissingColumnValue c2 -> c1 = c2).
Proof.
  intros Hr Hr' Hin Hv Hu.
  assert (Hc : In c (extractKeys (map filterUndefined records)))
    by (apply columns_in; eauto).
  assert (Hmiss : exists r c,
             In r records /\
             In c (extractKeys (map filterUndefined records)) /\
             get r c = VUndefined) by eauto.
  assert (Hthrow : forall i, exists e,
             buildFragment (spreadInsert escapeIdentifier records) i = Throw e).
  { intros i. rewrite spreadInsert_run. cbv zeta.
    destruct (rows_throw _ _ Hmiss (mkLocals [] i)) as [e He].
    rewrite He. eauto. }
  split; [exact Hthrow|]. split; [|split].
  - intros texts before after. rewrite sql_run.
    destruct (serializeElements_throw buildSql
                (VBuilder (spreadInsert escapeIdentifier records)) after
                Hthrow before 1) as [e He].
    rewrite He. eauto.
  - intros Hnt. destruct (firstMissing_exists _ _ Hmiss) as [c1 Hc1].
    exists c1. split; [exact Hc1|]. split.
    + destruct (firstMissing_some _ _ _ Hc1) as (r1 & Hr1 & _ & Hu1). eauto.
    + intros i. rewrite spreadInsert_run. cbv zeta.
      pose proof (rows_run (extractKeys (map filterUndefined records))
                           records Hnt (mkLocals [] i)) as Hrun.
      rewrite Hc1 in Hrun. rewrite Hrun. reflexivity.
  - intros c1 c2 H. unfold MissingColumnValue, missingValueMessage in H.
    inversion H as [Hmsg]. now apply append_char_inj in Hmsg.
Qed.

(** X15 at [spreadInsert({ a: 1, b: 2 }, { a: 3 })]: the builder throws the
    [TypeError] for column [b]. *)
Lemma spreadInsert_missing_value_witness :
  buildFragment (spreadInsert quoteIdentifier
                   [[("a", VNum 1); ("b", VNum 2)]; [("a", VNum 3)]]) 1
  = Throw (TypeError
             ("Missing value for column "
                ++ String "034" ("b" ++ String "034" EmptyString))).
Proof.
  destruct (spreadInsert_missing_value quoteIdentifier
              [[("a", VNum 1); ("b", VNum 2)]; [("a", VNum 3)]]
              [("a", VNum 3)] [("a", VNum 1); ("b", VNum 2)] "b" (VNum 2))
    as (_ & _ & H & _).
  - simpl; auto.
  - simpl; auto.
  - simpl; auto.
  - reflexivity.
  - reflexivity.
  - destruct H as (c1 & Hc1 & _ & Hthrow).
    + intros r0 c0 [<-|[<-|[]]]; apply neverThrows_scalar, get_scalar;
        repeat constructor.
    + vm_compute in Hc1. injection Hc1 as <-. exact (Hthrow 1).
Defined.

(** ** C5 *)

Lemma spreadInsert_insertBuilder (escapeIdentifier : string -> string)
      (records : list ValueRecord) :
  spreadInsert escapeIdentifier records
  = insertBuilder escapeIdentifier
      (extractKeys (map filterUndefined records)) records.
Proof. reflexivity. Qed.






(** ** C6 *)

Lemma filterUndefined_in (record : ValueRecord) (c : string) (v : value) :
  In (c, v) (filterUndefined record) <-> In (c, v) record /\ v <> VUndefined.
Proof.
  unfold filterUndefined. rewrite filter_In. simpl.
  rewrite negb_true_iff. split; intros [Hin Hv]; (split; [assumption|]).
  - rewrite <- isUndefined_true. congruence.
  - destruct (isUndefined v) eqn:E; [|reflexivity].
    apply isUndefined_true in E. contradiction.
Qed.

(** C6.  [spreadUpdate] keeps the entries whose value is not [undefined];
    it returns a fragment exactly when the values of those entries
    serialize, with running index; the text is then the setters
    [escapeIdentifier(column) = <serialized value>] joined with a comma and
    a space, without parentheses, and the values are those of the entries
    in order.  For [{ name: "John", email: undefined }] the text is the one
    setter for [name], with the one value ["John"]. *)
Theorem spreadUpdate_setters
    (escapeIdentifier : string -> string) (record : ValueRecord) (i : nat) :
  (forall c v, In (c, v) (filterUndefined record) <->
               In (c, v) record /\ v <> VUndefined) /\
  (forall q,
      buildFragment (spreadUpdate escapeIdentifier record) i = Ok q <->
      exists qs,
        RunningIndex buildSql (map snd (filterUndefined record)) i qs /\
        text q = join ", " (setterTexts escapeIdentifier
                                        (filterUndefined record) qs) /\
        values q = List.concat (map values qs)) /\
  buildFragment
    (spreadUpdate escapeIdentifier
                  [("name", VStr "John"); ("email", VUndefined)]) i
  = Ok (mkQuery (escapeIdentifier "name" ++ " = " ++ placeholder i)
                [VStr "John"]).
Proof.
  split; [intros c v; apply filterUndefined_in|]. split; [|reflexivity].
  intros q. rewrite spreadUpdate_run. split.
  - destruct (serializeElements buildSql _ i) as [qs|err] eqn:E;
      [|discriminate].
    intros H; inversion H; subst; clear H. exists qs.
    split; [now apply serializeElements_running|]. split; reflexivity.
  - intros (qs & Hrun & Ht & Hv).
    apply serializeElements_running in Hrun. rewrite Hrun.
    rewrite <- Ht, <- Hv. now rewrite query_eta.
Qed.

(** ** C7 *)

(** C7.  A builder interpolated into a template after expressions that
    consumed [n] parameters is serialized at start index [n + 1], not at 1:
    its text enters the query as serialized there and its values follow the
    [n] earlier ones; and when the builder is bound (for instance made by
    [spreadAnd] over scalars), the placeholder tokens of its text are
    [n + 1, n + 2, ...], one per value of its own. *)
Theorem nested_builder_renumbered
    (escapeIdentifier : string -> string) (b : SqlBuilder)
    (texts : list string) (before : list value)
    (qs : list QueryConfig) (q : QueryConfig) :
  serializeElements buildSql before 1 = Ok qs ->
  sql texts (before ++ [VBuilder b])%list = Ok q ->
  exists fragment,
    buildFragment b (1 + consumed qs) = Ok fragment /\
    text q = join EmptyString
                  (mergeLists texts (map text qs ++ [text fragment])%list) /\
    values q = (List.concat (map values qs) ++ values fragment)%list /\
    (Bound escapeIdentifier (VBuilder b) ->
     placeholders (text fragment)
     = seq (1 + consumed qs) (List.length (values fragment))).
Proof.
  intros Hbefore Hsql.
  rewrite sql_run, serializeElements_app, Hbefore in Hsql.
  simpl in Hsql. change (1 + consumed qs) with (S (consumed qs)).
  destruct (buildFragment b (S (consumed qs))) as [fragment|err] eqn:E;
    [|discriminate].
  inversion Hsql; subst; clear Hsql. exists fragment.
  split; [reflexivity|]. cbn [text values].
  split; [now rewrite map_app|].
  split.
  - rewrite map_app, concat_app. simpl. now rewrite List.app_nil_r.
  - intros Hb.
    pose proof (Bound_WellNumbered _ _ Hb (S (consumed qs)) fragment) as Hn.
    simpl in Hn. destruct (Hn E) as [_ Hp]. exact Hp.
Qed.

(** C7 at [sql`... a = ${1} AND b = ${2} AND ${spreadAnd({ c: 3, d: 4 })}`]:
    the placeholders of the [spreadAnd] fragment are [$3] and [$4]. *)
Lemma nested_builder_renumbered_witness :
  exists fragment,
    buildFragment (spreadAnd quoteIdentifier [("c", VNum 3); ("d", VNum 4)])
                  (1 + 2) = Ok fragment /\
    placeholders (text fragment) = [3; 4].
Proof.
  destruct (nested_builder_renumbered quoteIdentifier
              (spreadAnd quoteIdentifier [("c", VNum 3); ("d", VNum 4)])
              ["a = "; " AND b = "; " AND "; EmptyString]
              [VNum 1; VNum 2]
              [mkQuery "$1" [VNum 1]; mkQuery "$2" [VNum 2]]
              (mkQuery
                 (String.concat EmptyString
                    ["a = $1 AND b = $2 AND ("; dquote; "c"; dquote;
                     " = $3 AND "; dquote; "d"; dquote; " = $4)"])
                 [VNum 1; VNum 2; VNum 3; VNum 4]))
    as (fragment & Hf & _ & _ & Hp).
  - reflexivity.
  - reflexivity.
  - exists fragment. split; [exact Hf|].
    rewrite Hp by (apply Bound_spreadAnd; simpl; repeat constructor).
    vm_compute in Hf. injection Hf as <-. reflexivity.
Defined.

(** ** C8 *)

(** C8.  A list serializes exactly when its elements do, each at the start
    index plus the number of parameters of the elements before it; the text
    is the element texts joined with a comma and a space inside one pair of
    parentheses and the values are the elements' values in order.
    [[1, 2, 3]] at index 1 gives [($1, $2, $3)] with values [[1, 2, 3]];
    the empty list gives [()] with no value, and the expression after it in
    a template is serialized at the index the list was. *)
Theorem list_serialization (elems : list value) (i : nat) :
  (forall q,
      buildSql (VArr elems) i = Ok q <->
      exists qs,
        RunningIndex buildSql elems i qs /\
        text q = "(" ++ join ", " (map text qs) ++ ")" /\
        values q = List.concat (map values qs)) /\
  buildSql (VArr [VNum 1; VNum 2; VNum 3]) 1
  = Ok (mkQuery "($1, $2, $3)" [VNum 1; VNum 2; VNum 3]) /\
  sql [EmptyString; EmptyString] [VArr [VNum 1; VNum 2; VNum 3]]
  = Ok (mkQuery "($1, $2, $3)" [VNum 1; VNum 2; VNum 3]) /\
  buildSql (VArr []) i = Ok (mkQuery "()" []) /\
  (forall L0 L1 L2 e,
      sql [L0; L1; L2] [VArr []; e] =
      match buildSql e 1 with
      | Throw err => Throw err
      | Ok q => Ok (mkQuery (L0 ++ "()" ++ L1 ++ text q ++ L2) (values q))
      end).
Proof.
  split.
  { intros q. cbn [buildSql]. split.
    - destruct (serializeElements buildSql elems i) as [qs|err] eqn:E;
        [|discriminate].
      intros H; inversion H; subst; clear H. exists qs.
      split; [now apply serializeElements_running|]. split; reflexivity.
    - intros (qs & Hrun & Ht & Hv).
      apply serializeElements_running in Hrun. rewrite Hrun.
      rewrite <- Ht, <- Hv. now rewrite query_eta. }
  split; [reflexivity|]. split; [reflexivity|]. split; [reflexivity|].
  intros L0 L1 L2 e. rewrite sql_run. simpl.
  destruct (buildSql e 1) as [q|err]; [|reflexivity].
  simpl. now rewrite List.app_nil_r.
Qed.

(** ** C9 *)

(** C9.  The builder of [sql.safe(v)] serializes, for every value [v] and
    start index, to the one placeholder token of that index with [v] as
    its one value; a list is bound whole, not expanded. *)
Theorem safe_binds_one_parameter (v : value) (i : nat) :
  buildFragment (safeExpression v) i = Ok (mkQuery (placeholder i) [v]) /\
  buildSql (VBuilder (safeExpression v)) i = Ok (mkQuery (placeholder i) [v]) /\
  placeholders (placeholder i) = [i] /\
  buildSql (VBuilder (safeExpression (VArr [VNum 1; VNum 2]))) i
  = Ok (mkQuery (placeholder i) [VArr [VNum 1; VNum 2]]) /\
  (forall L0 L1,
      sql [L0; L1] [VBuilder (safeExpression v)]
      = Ok (mkQuery (L0 ++ placeholder 1 ++ L1) [v])).
Proof.
  split; [reflexivity|]. split; [reflexivity|].
  split; [apply placeholders_placeholder|]. split; [reflexivity|].
  intros L0 L1. rewrite sql_run. reflexivity.
Qed.

(** ** C10 *)

Lemma filterUndefined_nothing (record : ValueRecord) :
  Forall (fun entry => snd entry = VUndefined) record ->
  filterUndefined record = [].
Proof.
  induction 1 as [|[c v] rest Hv Hrest IH]; [reflexivity|].
  simpl in Hv. subst. simpl. exact IH.
Qed.

(** C10.  For a record without entries, or whose entries are all
    [undefined], the builder of [spreadAnd] serializes at every start index
    to the text [()] with no value. *)
Theorem spreadAnd_empty
    (escapeIdentifier : string -> string) (record : ValueRecord) (i : nat) :
  Forall (fun entry => snd entry = VUndefined) record ->
  buildFragment (spreadAnd escapeIdentifier record) i = Ok (mkQuery "()" []).
Proof.
  intros H. rewrite spreadAnd_run, (filterUndefined_nothing _ H). reflexivity.
Qed.

(** C10 at [spreadAnd({})] and [spreadAnd({ a: undefined, b: undefined })]. *)
Lemma spreadAnd_empty_witness :
  buildFragment (spreadAnd quoteIdentifier []) 1 = Ok (mkQuery "()" []) /\
  buildFragment
    (spreadAnd quoteIdentifier [("a", VUndefined); ("b", VUndefined)]) 5
  = Ok (mkQuery "()" []).
Proof.
  split.
  - apply (spreadAnd_empty quoteIdentifier [] 1). constructor.
  - apply (spreadAnd_empty quoteIdentifier
             [("a", VUndefined); ("b", VUndefined)] 5).
    repeat constructor.
Defined.

(** * Further properties of the template tag and the spread helpers *)

(** ** Scalars *)

Lemma serializeElements_scalars (vs : list value) :
  Forall (fun v => isScalar v = true) vs ->
  forall i, serializeElements buildSql vs i = Ok (scalarFragments vs i).
Proof.
  induction 1 as [|v rest Hv Hrest IH]; intros i; simpl; [reflexivity|].
  assert (E : buildSql v i = Ok (mkQuery (placeholder i) [v]))
    by (destruct v; simpl in Hv; try discriminate; reflexivity).
  rewrite E. cbn [values List.length].
  replace (i + 1) with (S i) by lia. now rewrite IH.
Qed.

Lemma scalarFragments_values (vs : list value) :
  forall i, List.concat (map values (scalarFragments vs i)) = vs.
Proof.
  induction vs as [|v rest IH]; intros i; simpl; [reflexivity|].
  now rewrite IH.
Qed.

Lemma scalarFragments_text (vs : list value) :
  forall i, map text (scalarFragments vs i)
            = map placeholder (seq i (List.length vs)).
Proof.
  induction vs as [|v rest IH]; intros i; simpl; [reflexivity|].
  now rewrite IH.
Qed.

Lemma scalarFragments_setters (escapeIdentifier : string -> string)
      (ents : list (string * value)) :
  forall i,
    setterTexts escapeIdentifier ents (scalarFragments (map snd ents) i)
    = scalarSetters escapeIdentifier ents i.
Proof.
  unfold setterTexts.
  induction ents as [|entry rest IH]; intros i; [reflexivity|].
  cbn [map scalarFragments combine scalarSetters fst snd text].
  now rewrite IH.
Qed.

Lemma scalar_entries (ents : list (string * value)) :
  Forall (fun entry => isScalar (snd entry) = true) ents ->
  Forall (fun v => isScalar v = true) (map snd ents).
Proof. induction 1; simpl; constructor; assumption. Qed.

(** X1.  For expressions that are all scalars, in a template with one more
    literal segment than expressions, [sql] returns the segments interleaved
    with the placeholders [$1 ... $n] and binds the expressions themselves,
    in order, as the values. *)
Theorem sql_scalars (texts : list string) (exprs : list value) :
  List.length texts = S (List.length exprs) ->
  Forall (fun v => isScalar v = true) exprs ->
  sql texts exprs =
  Ok (mkQuery (interleave (hd EmptyString texts) (tl texts)
                          (map placeholder (seq 1 (List.length exprs))))
              exprs).
Proof.
  intros Hlen Hs. rewrite sql_run, (serializeElements_scalars _ Hs).
  rewrite scalarFragments_values, scalarFragments_text.
  rewrite join_mergeLists by (now rewrite length_map, length_seq).
  reflexivity.
Qed.

(** X1 at [sql`SELECT * FROM t WHERE a = ${"x"} AND b = ${null}`]. *)
Lemma sql_scalars_witness :
  sql ["SELECT * FROM t WHERE a = "; " AND b = "; EmptyString]
      [VStr "x"; VNull]
  = Ok (mkQuery "SELECT * FROM t WHERE a = $1 AND b = $2" [VStr "x"; VNull]).
Proof.
  apply (sql_scalars ["SELECT * FROM t WHERE a = "; " AND b = "; EmptyString]
                     [VStr "x"; VNull] eq_refl).
  repeat constructor.
Defined.

(** ** [spreadAnd] and [spreadUpdate] *)

(** X2.  [spreadAnd] returns a fragment exactly when the values of the
    entries that are not [undefined] serialize, with running index; the
    text is then the setters [escapeIdentifier(column) = <serialized value>]
    joined with [ AND ] inside one pair of parentheses, and the values are
    those of the entries in order. *)
Theorem spreadAnd_chain
    (escapeIdentifier : string -> string) (record : ValueRecord) (i : nat)
    (q : QueryConfig) :
  buildFragment (spreadAnd escapeIdentifier record) i = Ok q <->
  exists qs,
    RunningIndex buildSql (map snd (filterUndefined record)) i qs /\
    text q = "(" ++ join " AND " (setterTexts escapeIdentifier
                                              (filterUndefined record) qs)
                 ++ ")" /\
    values q = List.concat (map values qs).
Proof.
  rewrite spreadAnd_run. split.
  - destruct (serializeElements buildSql _ i) as [qs|err] eqn:E;
      [|discriminate].
    intros H; inversion H; subst; clear H. exists qs.
    split; [now apply serializeElements_running|]. split; reflexivity.
  - intros (qs & Hrun & Ht & Hv).
    apply serializeElements_running in Hrun. rewrite Hrun.
    rewrite <- Ht, <- Hv. now rewrite query_eta.
Qed.

(** X3.  For a record whose values other than [undefined] are scalars,
    [spreadAnd] serializes at every index [i] to one setter per such entry,
    numbered [i], [i+1], ..., and binds exactly the values of those
    entries, in order: the text depends on the column names and the index
    only. *)
Theorem spreadAnd_scalars
    (escapeIdentifier : string -> string) (record : ValueRecord) (i : nat) :
  Forall (fun entry => isScalar (snd entry) = true) (filterUndefined record) ->
  buildFragment (spreadAnd escapeIdentifier record) i =
  Ok (mkQuery
        ("(" ++ join " AND " (scalarSetters escapeIdentifier
                                            (filterUndefined record) i)
             ++ ")")
        (map snd (filterUndefined record))).
Proof.
  intros Hs. rewrite spreadAnd_run.
  rewrite (serializeElements_scalars _ (scalar_entries _ Hs)).
  now rewrite scalarFragments_setters, scalarFragments_values.
Qed.

(** X3 at [spreadAnd({ name: "John", email: undefined, age: 30 })],
    index 2. *)
Lemma spreadAnd_scalars_witness :
  buildFragment
    (spreadAnd quoteIdentifier
               [("name", VStr "John"); ("email", VUndefined);
                ("age", VNum 30)]) 2
  = Ok (mkQuery
          (String.concat EmptyString
             ["("; dquote; "name"; dquote; " = $2 AND ";
              dquote; "age"; dquote; " = $3)"])
          [VStr "John"; VNum 30]).
Proof.
  apply (spreadAnd_scalars quoteIdentifier
           [("name", VStr "John"); ("email", VUndefined); ("age", VNum 30)] 2).
  repeat constructor.
Defined.

(** X4.  For a record whose values other than [undefined] are scalars,
    [spreadUpdate] serializes at every index [i] to one setter per such
    entry, numbered [i], [i+1], ..., joined with a comma and a space, and
    binds exactly the values of those entries, in order. *)
Theorem spreadUpdate_scalars
    (escapeIdentifier : string -> string) (record : ValueRecord) (i : nat) :
  Forall (fun entry => isScalar (snd entry) = true) (filterUndefined record) ->
  buildFragment (spreadUpdate escapeIdentifier record) i =
  Ok (mkQuery
        (join ", " (scalarSetters escapeIdentifier (filterUndefined record) i))
        (map snd (filterUndefined record))).
Proof.
  intros Hs. rewrite spreadUpdate_run.
  rewrite (serializeElements_scalars _ (scalar_entries _ Hs)).
  now rewrite scalarFragments_setters, scalarFragments_values.
Qed.

(** X4 at [spreadUpdate({ name: "John", age: 30 })], index 1. *)
Lemma spreadUpdate_scalars_witness :
  buildFragment
    (spreadUpdate quoteIdentifier [("name", VStr "John"); ("age", VNum 30)]) 1
  = Ok (mkQuery
          (String.concat EmptyString
             [dquote; "name"; dquote; " = $1, ";
              dquote; "age"; dquote; " = $2"])
          [VStr "John"; VNum 30]).
Proof.
  apply (spreadUpdate_scalars quoteIdentifier
           [("name", VStr "John"); ("age", VNum 30)] 1).
  repeat constructor.
Defined.

(** X5.  For a record without entries, or whose entries are all
    [undefined], [spreadUpdate] does not throw: it serializes at every
    index to the empty text with no value. *)
Theorem spreadUpdate_empty
    (escapeIdentifier : string -> string) (record : ValueRecord) (i : nat) :
  Forall (fun entry => snd entry = VUndefined) record ->
  buildFragment (spreadUpdate escapeIdentifier record) i
  = Ok (mkQuery EmptyString []).
Proof.
  intros H.
  rewrite spreadUpdate_run, (filterUndefined_nothing _ H). reflexivity.
Qed.

(** X5 at [spreadUpdate({ email: undefined })]. *)
Lemma spreadUpdate_empty_witness :
  buildFragment (spreadUpdate quoteIdentifier [("email", VUndefined)]) 3
  = Ok (mkQuery EmptyString []).
Proof.
  apply (spreadUpdate_empty quoteIdentifier [("email", VUndefined)] 3).
  repeat constructor.
Defined.

(** X6.  Built from the same record and serialized at the same index,
    [spreadAnd] and [spreadUpdate] bind the same values in the same order,
    or raise the same exception; and when the record has exactly one entry
    that is not [undefined], the text of [spreadAnd] is that of
    [spreadUpdate] in parentheses. *)
Theorem spreadAnd_spreadUpdate_agree
    (escapeIdentifier : string -> string) (record : ValueRecord) (i : nat) :
  SameValues (buildFragment (spreadAnd escapeIdentifier record) i)
             (buildFragment (spreadUpdate escapeIdentifier record) i) /\
  (List.length (filterUndefined record) = 1 ->
   forall qa qu,
     buildFragment (spreadAnd escapeIdentifier record) i = Ok qa ->
     buildFragment (spreadUpdate escapeIdentifier record) i = Ok qu ->
     text qa = "(" ++ text qu ++ ")").
Proof.
  rewrite spreadAnd_run, spreadUpdate_run. split.
  - destruct (serializeElements buildSql _ i); simpl; reflexivity.
  - intros Hone qa qu.
    destruct (serializeElements buildSql _ i) as [qs|err] eqn:E;
      [|discriminate].
    intros Ha Hu. inversion Ha; inversion Hu; subst; clear Ha Hu.
    cbn [text].
    pose proof (serializeElements_length _ _ _ _ E) as Hlen.
    rewrite length_map in Hlen.
    destruct (filterUndefined record) as [|entry [|e2 rest]];
      try discriminate.
    destruct qs as [|q [|q2 qs']]; try discriminate.
    reflexivity.
Qed.

(** X6 at [{ id: 7, note: undefined }], index 1. *)
Lemma spreadAnd_spreadUpdate_agree_witness :
  text (mkQuery ("(" ++ quoteIdentifier "id" ++ " = $1" ++ ")") [VNum 7])
  = "(" ++ text (mkQuery (quoteIdentifier "id" ++ " = $1") [VNum 7]) ++ ")".
Proof.
  apply (proj2 (spreadAnd_spreadUpdate_agree quoteIdentifier
                  [("id", VNum 7); ("note", VUndefined)] 1) eq_refl);
    reflexivity.
Defined.

Lemma serializeElements_total (elems : list value) :
  Forall neverThrows elems ->
  forall i, exists qs, serializeElements buildSql elems i = Ok qs.
Proof.
  induction 1 as [|e rest He Hrest IH]; intros i; simpl; [eauto|].
  destruct (He i) as [q ->].
  destruct (IH (i + List.length (values q))) as [qs ->]. eauto.
Qed.

(** X7.  [spreadAnd] and [spreadUpdate] raise no exception of their own:
    when every value of the record other than [undefined] serializes at
    every index, so do both builders, whatever [escapeIdentifier] returns. *)
Theorem spreadAnd_spreadUpdate_total
    (escapeIdentifier : string -> string) (record : ValueRecord) :
  Forall neverThrows (map snd (filterUndefined record)) ->
  neverThrows (VBuilder (spreadAnd escapeIdentifier record)) /\
  neverThrows (VBuilder (spreadUpdate escapeIdentifier record)).
Proof.
  intros Hv. split; intros i;
    change (buildSql (VBuilder ?b) i) with (buildFragment b i);
    [rewrite spreadAnd_run | rewrite spreadUpdate_run];
    destruct (serializeElements_total _ Hv i) as [qs ->]; eauto.
Qed.

Lemma neverThrows_list (elems : list value) :
  Forall neverThrows elems -> neverThrows (VArr elems).
Proof.
  intros Hv i. simpl.
  destruct (serializeElements_total _ Hv i) as [qs ->]. eauto.
Qed.

(** X7 at [spreadAnd({ id: [1, 2], tag: sql.raw("DEFAULT") })], index 4. *)
Lemma spreadAnd_spreadUpdate_total_witness :
  exists q,
    buildSql
      (VBuilder (spreadAnd quoteIdentifier
                   [("id", VArr [VNum 1; VNum 2]);
                    ("tag", VBuilder (rawExpression "DEFAULT"))])) 4
    = Ok q.
Proof.
  refine (proj1 (spreadAnd_spreadUpdate_total quoteIdentifier
                   [("id", VArr [VNum 1; VNum 2]);
                    ("tag", VBuilder (rawExpression "DEFAULT"))] _) 4).
  simpl. constructor.
  - apply neverThrows_list.
    constructor; [now apply neverThrows_scalar|].
    constructor; [now apply neverThrows_scalar | constructor].
  - constructor; [|constructor]. intros i. simpl. eauto.
Defined.

(** ** Exceptions in [sql] *)

Lemma serializeElements_first_throw (elems : list value) (e : error) :
  forall i,
    serializeElements buildSql elems i = Throw e <->
    exists before failing after qs,
      elems = (before ++ failing :: after)%list /\
      serializeElements buildSql before i = Ok qs /\
      buildSql failing (i + consumed qs) = Throw e.
Proof.
  induction elems as [|x rest IH]; intros i; simpl.
  - split; [discriminate|].
    intros (before & failing & after & qs & Heq & _).
    destruct before; discriminate.
  - split.
    + destruct (buildSql x i) as [q|err] eqn:Ex.
      * destruct (serializeElements buildSql rest _) as [qs'|err] eqn:E;
          [discriminate|].
        intros H; inversion H; subst; clear H.
        apply IH in E.
        destruct E as (before & failing & after & qs & -> & Hb & Hf).
        exists (x :: before), failing, after, (q :: qs).
        split; [reflexivity|]. simpl. rewrite Ex, Hb.
        split; [reflexivity|].
        now rewrite consumed_cons, Nat.add_assoc.
      * intros H; inversion H; subst; clear H.
        exists [], x, rest, []. simpl.
        unfold consumed; simpl. rewrite Nat.add_0_r. auto.
    + intros (before & failing & after & qs & Heq & Hb & Hf).
      destruct before as [|b before'].
      * simpl in Heq, Hb. inversion Heq; subst. inversion Hb; subst.
        unfold consumed in Hf; simpl in Hf. rewrite Nat.add_0_r in Hf.
        now rewrite Hf.
      * simpl in Heq. inversion Heq; subst. simpl in Hb.
        destruct (buildSql b i) as [q|err]; [|discriminate].
        destruct (serializeElements buildSql before' _) as [qs'|err] eqn:E;
          [|discriminate].
        inversion Hb; subst; clear Hb.
        rewrite consumed_cons, Nat.add_assoc in Hf.
        assert (Hrest : serializeElements buildSql
                          (before' ++ failing :: after)%list
                          (i + List.length (values q)) = Throw e).
        { apply IH. exists before', failing, after, qs'. auto. }
        now rewrite Hrest.
Qed.

(** X8.  [sql] throws exactly when the serialization of one of its
    expressions throws, and then with the exception of the first such
    expression, raised at index 1 plus the number of values of the
    expressions before it; the literal segments play no part. *)
Theorem sql_first_exception
    (texts : list string) (exprs : list value) (e : error) :
  sql texts exprs = Throw e <->
  exists before failing after qs,
    exprs = (before ++ failing :: after)%list /\
    serializeElements buildSql before 1 = Ok qs /\
    buildSql failing (1 + consumed qs) = Throw e.
Proof.
  rewrite sql_run, <- serializeElements_first_throw.
  destruct (serializeElements buildSql exprs 1) as [qs|err];
    split; intros H; try discriminate; inversion H; reflexivity.
Qed.

(** ** [sql.raw] *)

Lemma serializeElements_without_raw (exprs : list value) :
  forall i,
    match serializeElements buildSql exprs i,
          serializeElements buildSql
            (filter (fun v => negb (isRaw v)) exprs) i with
    | Ok qs, Ok qs' =>
        List.concat (map values qs) = List.concat (map values qs')
    | Throw e, Throw e' => e = e'
    | _, _ => False
    end.
Proof.
  induction exprs as [|x rest IH]; intros i; [reflexivity|].
  destruct (isRaw x) eqn:R.
  - destruct x as [| | | | | |[raw|v|fn]|name]; try discriminate.
    cbn [filter isRaw negb serializeElements buildSql buildFragment
         values List.length].
    rewrite Nat.add_0_r. specialize (IH i).
    destruct (serializeElements buildSql rest i) as [qs|err],
             (serializeElements buildSql
                (filter (fun v => negb (isRaw v)) rest) i) as [qs'|err'];
      try contradiction; simpl; assumption.
  - cbn [filter]. rewrite R. cbn [negb serializeElements].
    destruct (buildSql x i) as [q|err]; [|reflexivity].
    specialize (IH (i + List.length (values q))).
    destruct (serializeElements buildSql rest _) as [qs|err],
             (serializeElements buildSql
                (filter (fun v => negb (isRaw v)) rest) _) as [qs'|err'];
      try contradiction; simpl; [now rewrite IH | assumption].
Qed.

(** X9.  A [sql.raw] fragment binds no parameter and shifts no index: the
    values [sql] returns, or the exception it throws, are those of the same
    call with the [sql.raw] expressions left out, whatever the literal
    segments are. *)
Theorem sql_raw_binds_nothing (texts texts' : list string) (exprs : list value) :
  resultValues (sql texts exprs)
  = resultValues (sql texts' (filter (fun v => negb (isRaw v)) exprs)).
Proof.
  rewrite !sql_run.
  pose proof (serializeElements_without_raw exprs 1) as H.
  destruct (serializeElements buildSql exprs 1) as [qs|err],
           (serializeElements buildSql _ 1) as [qs'|err'];
    try contradiction; simpl; now rewrite H.
Qed.

(** ** [spreadInsert] when no value is missing *)

Lemma firstMissing_none (columns : list string) (records : list ValueRecord) :
  firstMissing columns records = None ->
  forall r c, In r records -> In c columns -> isUndefined (get r c) = false.
Proof.
  induction records as [|r0 rest IH]; intros H r c Hr Hc; [destruct Hr|].
  simpl in H. destruct (missingIn columns r0) as [c0|] eqn:E; [discriminate|].
  destruct Hr as [<-|Hr].
  - unfold missingIn in E. exact (find_none _ _ E c Hc).
  - now apply IH.
Qed.

(** X10.  When the values of the records themselves serialize,
    [spreadInsert] returns a fragment exactly when no record lacks a value
    for a column of the column set, that is, when every record holds a
    value other than [undefined] under every column name. *)
Theorem spreadInsert_complete_iff
    (escapeIdentifier : string -> string) (records : list ValueRecord)
    (i : nat) :
  (forall r c, In r records -> neverThrows (get r c)) ->
  ((exists q, buildFragment (spreadInsert escapeIdentifier records) i = Ok q)
   <-> firstMissing (extractKeys (map filterUndefined records)) records = None)
  /\
  (firstMissing (extractKeys (map filterUndefined records)) records = None
   <-> forall r c, In r records ->
                   In c (extractKeys (map filterUndefined records)) ->
                   get r c <> VUndefined).
Proof.
  intros Hv. split.
  - rewrite spreadInsert_run. cbv zeta.
    pose proof (rows_run (extractKeys (map filterUndefined records)) records
                         Hv (mkLocals [] i)) as Hrun.
    destruct (firstMissing _ records) as [c|].
    + rewrite Hrun. split; [intros [q Hq]; discriminate | discriminate].
    + destruct Hrun as (rows & st & ->). split; eauto.
  - split.
    + intros Hnone r c Hr Hc Hu.
      pose proof (firstMissing_none _ _ Hnone r c Hr Hc) as Hd.
      rewrite Hu in Hd. discriminate.
    + intros Hall.
      destruct (firstMissing _ records) as [c|] eqn:E; [|reflexivity].
      destruct (firstMissing_some _ _ _ E) as (r & Hr & Hc & Hu).
      destruct (Hall r c Hr Hc Hu).
Qed.

(** X10 at [spreadInsert({ a: 1, b: 2 }, { b: 4, a: 3 })]. *)
Lemma spreadInsert_complete_iff_witness :
  exists q,
    buildFragment
      (spreadInsert quoteIdentifier
         [[("a", VNum 1); ("b", VNum 2)]; [("b", VNum 4); ("a", VNum 3)]]) 1
    = Ok q.
Proof.
  refine (proj2 (proj1 (spreadInsert_complete_iff quoteIdentifier
            [[("a", VNum 1); ("b", VNum 2)]; [("b", VNum 4); ("a", VNum 3)]]
            1 _)) _).
  - intros r c [<-|[<-|[]]]; apply neverThrows_scalar, get_scalar;
      repeat constructor.
  - reflexivity.
Defined.

Lemma cells_complete_run (record : ValueRecord) (columns : list string) :
  Forall (fun c => isUndefined (get record c) = false) columns ->
  forall vs i,
    mapM (insertCell record) columns (mkLocals vs i) =
    match serializeElements buildSql (map (get record) columns) i with
    | Throw e => Throw e
    | Ok qs => Ok (map text qs,
                   mkLocals (vs ++ List.concat (map values qs))%list
                            (i + consumed qs))
    end.
Proof.
  induction 1 as [|c rest Hc Hrest IH]; intros vs i.
  - simpl. unfold ret, consumed. simpl.
    now rewrite List.app_nil_r, Nat.add_0_r.
  - rewrite mapM_cons, insertCell_run, Hc. simpl.
    destruct (buildSql (get record c) i) as [q|e]; [|reflexivity].
    rewrite IH.
    destruct (serializeElements buildSql (map (get record) rest) _)
      as [qs|e]; [|reflexivity].
    simpl. now rewrite consumed_cons, List.app_assoc, Nat.add_assoc.
Qed.

Lemma scalarFragments_consumed (vs : list value) (i : nat) :
  consumed (scalarFragments vs i) = List.length vs.
Proof. unfold consumed. now rewrite scalarFragments_values. Qed.

Lemma rows_scalars (columns : list string) (records : list ValueRecord) :
  (forall r c, In r records -> In c columns ->
               isUndefined (get r c) = false) ->
  (forall r c, In r records -> isScalar (get r c) = true) ->
  forall vs i,
    mapM (insertRow columns) records (mkLocals vs i) =
    Ok (scalarRows (List.length columns) (List.length records) i,
        mkLocals (vs ++ cellValues columns records)%list
                 (i + List.length records * List.length columns)).
Proof.
  induction records as [|r0 rest IH]; intros Hd Hs vs i.
  - simpl. unfold ret. now rewrite List.app_nil_r, Nat.add_0_r.
  - rewrite mapM_cons, insertRow_run.
    rewrite cells_complete_run
      by (apply Forall_forall; intros c Hc; apply Hd; [now left | exact Hc]).
    rewrite serializeElements_scalars
      by (apply Forall_forall; intros v Hv; apply in_map_iff in Hv;
          destruct Hv as (c & <- & _); apply Hs; now left).
    rewrite scalarFragments_text, scalarFragments_values,
      scalarFragments_consumed, !length_map.
    rewrite IH;
      [| intros r c Hr Hc; apply Hd; [now right | exact Hc]
       | intros r c Hr; apply Hs; now right].
    unfold cellValues. simpl.
    rewrite List.app_assoc. do 3 f_equal. lia.
Qed.

Lemma cellValues_length (columns : list string) (records : list ValueRecord) :
  List.length (cellValues columns records)
  = List.length records * List.length columns.
Proof.
  unfold cellValues. induction records as [|r rest IH]; [reflexivity|].
  simpl. now rewrite List.length_app, length_map, IH.
Qed.

(** X11.  When no record lacks a value and all the values are scalars,
    [spreadInsert] serializes at index [i] to the escaped column names in
    parentheses, [ VALUES ], and one parenthesized row of placeholders per
    record, numbered [i], [i+1], ... row by row; the values are the cells
    row by row, in column order, as many as records times columns. *)
Theorem spreadInsert_scalars
    (escapeIdentifier : string -> string) (records : list ValueRecord)
    (i : nat) :
  let columns := extractKeys (map filterUndefined records) in
  firstMissing columns records = None ->
  Forall (fun r => Forall (fun entry => isScalar (snd entry) = true) r)
         records ->
  buildFragment (spreadInsert escapeIdentifier records) i =
  Ok (mkQuery
        (("(" ++ join ", " (map escapeIdentifier columns) ++ ")")
           ++ " VALUES "
           ++ "(" ++ join "), (" (scalarRows (List.length columns)
                                             (List.length records) i)
           ++ ")")
        (cellValues columns records)) /\
  List.length (cellValues columns records)
  = List.length records * List.length columns.
Proof.
  intros columns Hnone Hs. split; [|apply cellValues_length].
  rewrite spreadInsert_run. cbv zeta. fold columns.
  rewrite rows_scalars.
  - reflexivity.
  - intros r c Hr Hc. now apply (firstMissing_none _ _ Hnone).
  - intros r c Hr. apply get_scalar.
    rewrite Forall_forall in Hs. now apply Hs.
Qed.

(** X11 at [spreadInsert({ a: 1, b: 2 }, { b: 4, a: 3 })], index 5. *)
Lemma spreadInsert_scalars_witness :
  buildFragment
    (spreadInsert quoteIdentifier
       [[("a", VNum 1); ("b", VNum 2)]; [("b", VNum 4); ("a", VNum 3)]]) 5
  = Ok (mkQuery
          (String.concat EmptyString
             ["("; dquote; "a"; dquote; ", "; dquote; "b"; dquote;
              ") VALUES ($5, $6), ($7, $8)"])
          [VNum 1; VNum 2; VNum 3; VNum 4]).
Proof.
  refine (proj1 (spreadInsert_scalars quoteIdentifier
            [[("a", VNum 1); ("b", VNum 2)]; [("b", VNum 4); ("a", VNum 3)]]
            5 _ _)).
  - reflexivity.
  - repeat constructor.
Defined.

(** ** [spreadInsert] of one record *)

Lemma existsb_not_in (key : string) (keys : list string) :
  ~ In key keys -> existsb (String.eqb key) keys = false.
Proof.
  intros Hn. destruct (existsb (String.eqb key) keys) eqn:E; [|reflexivity].
  apply existsb_exists in E. destruct E as (k & Hk & Heq).
  apply String.eqb_eq in Heq. subst. contradiction.
Qed.

Lemma addKeys_nodup (ks : list string) :
  forall keys, NoDup (keys ++ ks) -> fold_left addKey ks keys = (keys ++ ks)%list.
Proof.
  induction ks as [|k rest IH]; intros keys Hnd; simpl.
  - now rewrite List.app_nil_r.
  - assert (Hk : ~ In k keys).
    { intros Hin. apply NoDup_remove_2 in Hnd. apply Hnd.
      apply in_or_app. now left. }
    unfold addKey at 2. rewrite (existsb_not_in _ _ Hk).
    rewrite IH; rewrite <- List.app_assoc; [reflexivity | exact Hnd].
Qed.

Lemma filter_keys_nodup (f : string * value -> bool) (record : ValueRecord) :
  NoDup (map fst record) -> NoDup (map fst (filter f record)).
Proof.
  induction record as [|entry rest IH]; intros Hnd; [constructor|].
  simpl in Hnd. inversion Hnd as [|? ? Hn Hrest]; subst. simpl.
  destruct (f entry); [|now apply IH].
  simpl. constructor; [|now apply IH].
  intros Hin. apply Hn. apply in_map_iff in Hin.
  destruct Hin as (e & He & Hin). apply filter_In in Hin.
  apply in_map_iff. exists e. tauto.
Qed.

Lemma get_in (record : ValueRecord) (c : string) (v : value) :
  NoDup (map fst record) -> In (c, v) record -> get record c = v.
Proof.
  induction record as [|[k v0] rest IH]; intros Hnd Hin; [destruct Hin|].
  simpl in Hnd. inversion Hnd as [|? ? Hn Hrest]; subst. simpl.
  destruct (String.eqb k c) eqn:E.
  - apply String.eqb_eq in E. subst.
    destruct Hin as [Heq|Hin]; [congruence|].
    exfalso. apply Hn. apply in_map_iff. now exists (c, v).
  - destruct Hin as [Heq|Hin]; [|now apply IH].
    inversion Heq; subst. rewrite String.eqb_refl in E. discriminate.
Qed.

Lemma own_cells (record : ValueRecord) :
  NoDup (map fst record) ->
  map (get record) (map fst (filterUndefined record))
  = map snd (filterUndefined record) /\
  Forall (fun c => isUndefined (get record c) = false)
         (map fst (filterUndefined record)).
Proof.
  intros Hnd.
  assert (H : forall entry, In entry (filterUndefined record) ->
                            get record (fst entry) = snd entry /\
                            isUndefined (snd entry) = false).
  { intros [c v] Hin. unfold filterUndefined in Hin.
    apply filter_In in Hin. destruct Hin as [Hin Hv]. simpl in *.
    split; [now apply get_in | now apply negb_true_iff]. }
  split.
  - rewrite map_map. apply map_ext_in. intros entry Hin. now apply H.
  - apply Forall_forall. intros c Hc. apply in_map_iff in Hc.
    destruct Hc as (entry & <- & Hin).
    destruct (H entry Hin) as [-> Hv]. exact Hv.
Qed.

Lemma extractKeys_single (record : ValueRecord) :
  NoDup (map fst record) -> extractKeys [record] = map fst record.
Proof.
  intros Hnd. unfold extractKeys. simpl. now apply addKeys_nodup.
Qed.

(** X12.  For one record with distinct keys [spreadInsert] never reports a
    missing value: the columns are the keys of the entries other than
    [undefined], in order, and the builder serializes exactly when the
    values of those entries do, to the escaped column names, [ VALUES ] and
    one row of their texts; it binds the same values as [spreadAnd] of the
    record, or raises the same exception. *)
Theorem spreadInsert_single_record
    (escapeIdentifier : string -> string) (record : ValueRecord) (i : nat) :
  NoDup (map fst record) ->
  buildFragment (spreadInsert escapeIdentifier [record]) i =
  match serializeElements buildSql (map snd (filterUndefined record)) i with
  | Throw e => Throw e
  | Ok qs =>
      Ok (mkQuery
            (("(" ++ join ", " (map escapeIdentifier
                                    (map fst (filterUndefined record)))
                  ++ ")")
               ++ " VALUES " ++ "(" ++ join ", " (map text qs) ++ ")")
            (List.concat (map values qs)))
  end /\
  SameValues (buildFragment (spreadInsert escapeIdentifier [record]) i)
             (buildFragment (spreadAnd escapeIdentifier record) i).
Proof.
  intros Hnd.
  assert (Hrun : buildFragment (spreadInsert escapeIdentifier [record]) i =
                 match serializeElements buildSql
                         (map snd (filterUndefined record)) i with
                 | Throw e => Throw e
                 | Ok qs =>
                     Ok (mkQuery
                           (("(" ++ join ", "
                                      (map escapeIdentifier
                                           (map fst (filterUndefined record)))
                                 ++ ")")
                              ++ " VALUES "
                              ++ "(" ++ join ", " (map text qs) ++ ")")
                           (List.concat (map values qs)))
                 end).
  { rewrite spreadInsert_run. cbv zeta. cbn [map].
    rewrite (extractKeys_single (filterUndefined record))
      by (now apply filter_keys_nodup).
    destruct (own_cells record Hnd) as [Hcells Hdef].
    rewrite mapM_cons, insertRow_run, (cells_complete_run _ _ Hdef), Hcells.
    destruct (serializeElements buildSql _ i) as [qs|e]; reflexivity. }
  split; [exact Hrun|].
  rewrite Hrun, spreadAnd_run.
  destruct (serializeElements buildSql _ i); simpl; reflexivity.
Qed.

(** X12 at [spreadInsert({ name: "John", email: undefined, tags: ["a"] })],
    index 1. *)
Lemma spreadInsert_single_record_witness :
  buildFragment
    (spreadInsert quoteIdentifier
       [[("name", VStr "John"); ("email", VUndefined);
         ("tags", VArr [VStr "a"])]]) 1
  = Ok (mkQuery
          (String.concat EmptyString
             ["("; dquote; "name"; dquote; ", "; dquote; "tags"; dquote;
              ") VALUES ($1, ($2))"])
          [VStr "John"; VStr "a"]).
Proof.
  refine (eq_trans (proj1 (spreadInsert_single_record quoteIdentifier
            [("name", VStr "John"); ("email", VUndefined);
             ("tags", VArr [VStr "a"])] 1 _)) _).
  - repeat constructor; simpl; intuition discriminate.
  - reflexivity.
Defined.

(** ** [spreadInsert] without columns *)

Lemma addKeys_nothing (objects : list ValueRecord) :
  Forall (fun object => object = []) objects ->
  forall keys,
    fold_left (fun keys object => fold_left addKey (map fst object) keys)
              objects keys = keys.
Proof.
  induction 1 as [|o rest Ho Hrest IH]; intros keys; [reflexivity|].
  subst. simpl. apply IH.
Qed.

Lemma rows_without_columns (records : list ValueRecord) :
  forall st,
    mapM (insertRow []) records st
    = Ok (repeat EmptyString (List.length records), st).
Proof.
  induction records as [|r rest IH]; intros st; simpl; [reflexivity|].
  unfold bind. unfold insertRow at 1. unfold bind, ret. simpl.
  now rewrite IH.
Qed.

(** X13.  When no record holds a value other than [undefined] (in
    particular for no record at all), [spreadInsert] does not throw: the
    column list and every row are empty, and the builder serializes at
    every index to [() VALUES (), (), ...] with one empty group per record
    and no value. *)
Theorem spreadInsert_no_columns
    (escapeIdentifier : string -> string) (records : list ValueRecord)
    (i : nat) :
  Forall (fun r => Forall (fun entry => snd entry = VUndefined) r) records ->
  buildFragment (spreadInsert escapeIdentifier records) i =
  Ok (mkQuery
        ("()" ++ " VALUES " ++ "("
              ++ join "), (" (repeat EmptyString (List.length records))
              ++ ")")
        []).
Proof.
  intros Hall.
  assert (Hcols : extractKeys (map filterUndefined records) = []).
  { unfold extractKeys. apply addKeys_nothing.
    apply Forall_forall. intros o Ho. apply in_map_iff in Ho.
    destruct Ho as (r & <- & Hr). apply filterUndefined_nothing.
    rewrite Forall_forall in Hall. now apply Hall. }
  rewrite spreadInsert_run. cbv zeta. rewrite Hcols.
  rewrite rows_without_columns. reflexivity.
Qed.

(** X13 at [spreadInsert({ a: undefined }, {})]. *)
Lemma spreadInsert_no_columns_witness :
  buildFragment (spreadInsert quoteIdentifier [[("a", VUndefined)]; []]) 1
  = Ok (mkQuery "() VALUES (), ()" []).
Proof.
  apply (spreadInsert_no_columns quoteIdentifier [[("a", VUndefined)]; []] 1).
  repeat constructor.
Defined.

(** ** Serializing at another index *)

Lemma IndexFree_sequence (elems : list value) :
  Forall IndexFree elems ->
  forall i j, SameValuesSeq (serializeElements buildSql elems i)
                            (serializeElements buildSql elems j).
Proof.
  induction 1 as [|e rest He Hrest IH]; intros i j; simpl; [reflexivity|].
  specialize (He i j). unfold SameValues in He.
  destruct (buildSql e i) as [q|err], (buildSql e j) as [q'|err'];
    try contradiction; [|exact He].
  rewrite He.
  specialize (IH (i + List.length (values q'))
                 (j + List.length (values q'))).
  unfold SameValuesSeq in IH.
  destruct (serializeElements buildSql rest (i + _)) as [qs|err],
           (serializeElements buildSql rest (j + _)) as [qs'|err'];
    try contradiction; [|exact IH].
  simpl. now rewrite He, IH.
Qed.

Lemma IndexFree_scalar (v : value) : isScalar v = true -> IndexFree v.
Proof.
  intros Hs i j. destruct v; simpl in Hs; try discriminate; reflexivity.
Qed.

Lemma IndexFree_list (elems : list value) :
  Forall IndexFree elems -> IndexFree (VArr elems).
Proof.
  intros Hall i j. simpl.
  pose proof (IndexFree_sequence _ Hall i j) as H. unfold SameValuesSeq in H.
  destruct (serializeElements buildSql elems i) as [qs|err],
           (serializeElements buildSql elems j) as [qs'|err'];
    try contradiction; simpl; [now rewrite H | exact H].
Qed.

Lemma IndexFree_spreadAnd (escapeIdentifier : string -> string)
      (record : ValueRecord) :
  Forall IndexFree (map snd (filterUndefined record)) ->
  IndexFree (VBuilder (spreadAnd escapeIdentifier record)).
Proof.
  intros Hall i j.
  change (buildSql (VBuilder ?b) ?k) with (buildFragment b k).
  rewrite !spreadAnd_run.
  pose proof (IndexFree_sequence _ Hall i j) as H. unfold SameValuesSeq in H.
  destruct (serializeElements buildSql _ i) as [qs|err],
           (serializeElements buildSql _ j) as [qs'|err'];
    try contradiction; simpl; [now rewrite H | exact H].
Qed.

Lemma IndexFree_spreadUpdate (escapeIdentifier : string -> string)
      (record : ValueRecord) :
  Forall IndexFree (map snd (filterUndefined record)) ->
  IndexFree (VBuilder (spreadUpdate escapeIdentifier record)).
Proof.
  intros Hall i j.
  change (buildSql (VBuilder ?b) ?k) with (buildFragment b k).
  rewrite !spreadUpdate_run.
  pose proof (IndexFree_sequence _ Hall i j) as H. unfold SameValuesSeq in H.
  destruct (serializeElements buildSql _ i) as [qs|err],
           (serializeElements buildSql _ j) as [qs'|err'];
    try contradiction; simpl; [now rewrite H | exact H].
Qed.

Lemma cells_index_free (record : ValueRecord) (columns : list string) :
  Forall IndexFree (map (get record) columns) ->
  forall vs i j,
    match mapM (insertCell record) columns (mkLocals vs i),
          mapM (insertCell record) columns (mkLocals vs j) with
    | Ok (_, st), Ok (_, st') =>
        exists ws,
          st = mkLocals (vs ++ ws)%list (i + List.length ws) /\
          st' = mkLocals (vs ++ ws)%list (j + List.length ws)
    | Throw e, Throw e' => e = e'
    | _, _ => False
    end.
Proof.
  induction columns as [|c rest IH]; intros Hall vs i j.
  - simpl. unfold ret. exists []. simpl.
    now rewrite List.app_nil_r, !Nat.add_0_r.
  - simpl in Hall. inversion Hall as [|? ? Hc Hrest]; subst.
    rewrite !mapM_cons, !insertCell_run.
    destruct (isUndefined (get record c)); [reflexivity|].
    specialize (Hc i j). unfold SameValues in Hc.
    destruct (buildSql (get record c) i) as [q|err],
             (buildSql (get record c) j) as [q'|err'];
      try contradiction; [|exact Hc].
    rewrite Hc.
    specialize (IH Hrest (vs ++ values q')%list
                   (i + List.length (values q'))
                   (j + List.length (values q'))).
    destruct (mapM (insertCell record) rest
                   (mkLocals (vs ++ values q')%list (i + _)))
      as [[cs st]|err],
             (mapM (insertCell record) rest
                   (mkLocals (vs ++ values q')%list (j + _)))
      as [[cs' st']|err'];
      try contradiction; [|exact IH].
    destruct IH as (ws & -> & ->). exists (values q' ++ ws)%list.
    now rewrite List.length_app, List.app_assoc, !Nat.add_assoc.
Qed.

Lemma rows_index_free (columns : list string) (records : list ValueRecord) :
  Forall IndexFree (cellValues columns records) ->
  forall vs i j,
    match mapM (insertRow columns) records (mkLocals vs i),
          mapM (insertRow columns) records (mkLocals vs j) with
    | Ok (_, st), Ok (_, st') =>
        exists ws,
          st = mkLocals (vs ++ ws)%list (i + List.length ws) /\
          st' = mkLocals (vs ++ ws)%list (j + List.length ws)
    | Throw e, Throw e' => e = e'
    | _, _ => False
    end.
Proof.
  induction records as [|r rest IH]; intros Hall vs i j.
  - simpl. unfold ret. exists []. simpl.
    now rewrite List.app_nil_r, !Nat.add_0_r.
  - unfold cellValues in Hall. simpl in Hall. apply Forall_app in Hall.
    destruct Hall as [Hr Hrest].
    rewrite !mapM_cons, !insertRow_run.
    pose proof (cells_index_free r columns Hr vs i j) as Hcells.
    destruct (mapM (insertCell r) columns (mkLocals vs i)) as [[cs st]|err],
             (mapM (insertCell r) columns (mkLocals vs j)) as [[cs' st']|err'];
      try contradiction; [|exact Hcells].
    destruct Hcells as (ws & -> & ->).
    specialize (IH Hrest (vs ++ ws)%list (i + List.length ws)
                   (j + List.length ws)).
    destruct (mapM (insertRow columns) rest
                   (mkLocals (vs ++ ws)%list (i + _))) as [[rs st]|err],
             (mapM (insertRow columns) rest
                   (mkLocals (vs ++ ws)%list (j + _))) as [[rs' st']|err'];
      try contradiction; [|exact IH].
    destruct IH as (ws' & -> & ->). exists (ws ++ ws')%list.
    now rewrite List.length_app, List.app_assoc, !Nat.add_assoc.
Qed.

Lemma IndexFree_spreadInsert (escapeIdentifier : string -> string)
      (records : list ValueRecord) :
  Forall IndexFree
         (cellValues (extractKeys (map filterUndefined records)) records) ->
  IndexFree (VBuilder (spreadInsert escapeIdentifier records)).
Proof.
  intros Hall i j.
  change (buildSql (VBuilder ?b) ?k) with (buildFragment b k).
  rewrite !spreadInsert_run. cbv zeta.
  pose proof (rows_index_free _ _ Hall [] i j) as H.
  destruct (mapM _ records (mkLocals [] i)) as [[rs st]|err],
           (mapM _ records (mkLocals [] j)) as [[rs' st']|err'];
    try contradiction; simpl; [|exact H].
  destruct H as (ws & -> & ->). reflexivity.
Qed.

Lemma Bound_IndexFree (escapeIdentifier : string -> string) :
  forall v, Bound escapeIdentifier v -> IndexFree v.
Proof.
  fix IH 2. intros v H.
  assert (IHs : forall l, Forall (Bound escapeIdentifier) l ->
                          Forall IndexFree l).
  { fix IHl 2. intros l Hl. destruct Hl as [|x l' Hx Hl'].
    - constructor.
    - constructor; [apply IH; exact Hx | apply IHl; exact Hl']. }
  destruct H as [v Hs|elems Hall|v|record Hc Hall|record Hc Hall
                 |records Hc Hall].
  - now apply IndexFree_scalar.
  - apply IndexFree_list. now apply IHs.
  - intros i j. reflexivity.
  - apply IndexFree_spreadAnd. now apply IHs.
  - apply IndexFree_spreadUpdate. now apply IHs.
  - apply IndexFree_spreadInsert. now apply IHs.
Qed.

(** X14.  Serializing a bound expression (a scalar, a list, [sql.safe], or
    a spread helper over such expressions) at another start index changes
    the numbering only: if it serializes at index [i] it serializes at
    every index [j], with the same values, and the placeholder tokens of
    the two texts are [i, i+1, ...] and [j, j+1, ...], one per value. *)
Theorem bound_expression_renumbers
    (escapeIdentifier : string -> string) (v : value) (i j : nat)
    (q : QueryConfig) :
  Bound escapeIdentifier v ->
  buildSql v i = Ok q ->
  exists q',
    buildSql v j = Ok q' /\
    values q' = values q /\
    placeholders (text q) = seq i (List.length (values q)) /\
    placeholders (text q') = seq j (List.length (values q)).
Proof.
  intros Hb Hq.
  pose proof (Bound_IndexFree _ _ Hb i j) as Hfree.
  unfold SameValues in Hfree. rewrite Hq in Hfree.
  destruct (buildSql v j) as [q'|err] eqn:Eq'; [|contradiction].
  exists q'. split; [reflexivity|]. split; [now symmetry|].
  destruct (Bound_WellNumbered _ _ Hb _ _ Hq) as [_ Hp].
  destruct (Bound_WellNumbered _ _ Hb _ _ Eq') as [_ Hp'].
  split; [exact Hp|]. now rewrite Hp', Hfree.
Qed.

(** X14 at [spreadInsert({ a: 1, b: [2, 3] })], from index 1 to index 7. *)
Lemma bound_expression_renumbers_witness :
  exists q',
    buildSql (VBuilder (spreadInsert quoteIdentifier
                          [[("a", VNum 1); ("b", VArr [VNum 2; VNum 3])]])) 7
    = Ok q' /\
    values q' = [VNum 1; VNum 2; VNum 3] /\
    placeholders (text q') = [7; 8; 9].
Proof.
  destruct (bound_expression_renumbers quoteIdentifier
              (VBuilder (spreadInsert quoteIdentifier
                           [[("a", VNum 1); ("b", VArr [VNum 2; VNum 3])]]))
              1 7
              (mkQuery
                 (String.concat EmptyString
                    ["("; dquote; "a"; dquote; ", "; dquote; "b"; dquote;
                     ") VALUES ($1, ($2, $3))"])
                 [VNum 1; VNum 2; VNum 3]))
    as (q' & Hq' & Hv & _ & Hp).
  - apply Bound_spreadInsert.
    + repeat constructor.
    + simpl. constructor; [now apply Bound_scalar|].
      constructor; [|constructor].
      apply Bound_list. repeat constructor.
  - reflexivity.
  - exists q'. repeat split; assumption.
Defined.
